(** * containerd client: Pull, Push, Import and Export (client.go)

    A shallow embedding of the distribution entry points of [client.go].
    The Go code is an orchestrator: it calls a resolver, a content store,
    an image metadata service, a dispatcher and an unpacker, and threads
    errors back to its caller.  The embedding therefore is a state and
    error monad over the state of those collaborators, in which every call
    the orchestrator makes is recorded in a trace. *)

From Stdlib Require Import ZArith.
From stdpp Require Import base option list strings gmap.

Open Scope string_scope.
Open Scope list_scope.
Open Scope stdpp_scope.
Open Scope nat_scope.

(** ** Data *)

(** [ocispec.Descriptor]: the fields the client looks at. *)
Record Descriptor := mkDescriptor {
  MediaType : string;
  Digest : string;
  Size : Z
}.

(** [images.Image]: the record kept by the image metadata service. *)
Record Image := mkImage {
  Name : string;
  Target : Descriptor
}.

(** Go [error] values.  [StopHandler] is the sentinel [images.StopHandler];
    [ErrNotFound] stands for the errors on which [errdefs.IsNotFound]
    answers true; [ErrorString] is what [errors.New], [errors.Errorf] and
    [fmt.Errorf] build. *)
Inductive error :=
| StopHandler
| ErrNotFound (msg : string)
| ErrorString (msg : string).

Definition IsNotFound (err : error) : bool :=
  match err with ErrNotFound _ => true | _ => false end.

Definition IsStopHandler (err : error) : bool :=
  match err with StopHandler => true | _ => false end.

(** Result of a fallible call: Go's [(value, err)] pair of which exactly
    one component is looked at. *)
Inductive res (A : Type) :=
| Ok (a : A)
| Fail (err : error).
Arguments Ok {A} a.
Arguments Fail {A} err.

(** The media types the client dispatches on.  The constants are declared
    in packages [images] and [ocispec]; their values are the registered
    media type strings. *)
Definition MediaTypeDockerSchema2Manifest := "application/vnd.docker.distribution.manifest.v2+json".
Definition MediaTypeDockerSchema2ManifestList := "application/vnd.docker.distribution.manifest.list.v2+json".
Definition MediaTypeDockerSchema1Manifest := "application/vnd.docker.distribution.manifest.v1+prettyjws".
Definition MediaTypeImageManifest := "application/vnd.oci.image.manifest.v1+json".
Definition MediaTypeImageIndex := "application/vnd.oci.image.index.v1+json".

(** [imageFormat] is a Go string type with the single constant
    [ociImageFormat]. *)
Definition imageFormat : Type := string.
Definition ociImageFormat : imageFormat := "oci".

Record importOpts := mkImportOpts {
  imp_format : imageFormat;
  imp_refObject : string
}.

Record exportOpts := mkExportOpts {
  exp_format : imageFormat
}.

(** ** Trace of collaborator calls

    One event per call the client makes, in call order.  [EvUpload] carries
    the outcome of the upload handler; the calls of one goroutine are
    sequential, so an event recorded earlier belongs to a call that has
    returned before the next one starts. *)
Inductive Event :=
| EvResolve (ref : string)
| EvFetcher (name : string)
| EvPusher (ref : string)
| EvFetch (desc : Descriptor)
| EvChildren (desc : Descriptor)
| EvSchema1Handle (desc : Descriptor)
| EvSchema1Convert
| EvUpload (desc : Descriptor) (err : option error)
| EvUpdate (img : Image)
| EvCreate (img : Image)
| EvUnpack (img : Image) (snapshotter : string)
| EvImportOCI (ref : string)
.

(** Events that are operations of the image metadata service. *)
Definition isRegistryOp (ev : Event) : bool :=
  match ev with EvUpdate _ | EvCreate _ => true | _ => false end.

(** Events that write into the content store: the fetch handler copies a
    blob into it, and so do the schema 1 converter and the tar importer. *)
Definition isStoreWrite (ev : Event) : bool :=
  match ev with
  | EvFetch _ | EvSchema1Handle _ | EvSchema1Convert | EvImportOCI _ => true
  | _ => false
  end.

Definition isUnpack (ev : Event) : bool :=
  match ev with EvUnpack _ _ => true | _ => false end.

(** ** Collaborators

    Everything the client reaches through an interface or through another
    package: the handles are abstract, their operations are functions on
    the state [World] of the outside (remote registry, content store,
    metadata database, snapshotter). *)
Class Collaborators := {
  World : Type;
  Client : Type;
  Resolver : Type;
  Fetcher : Type;
  Pusher : Type;
  ContentStore : Type;
  ImageStore : Type;
  Converter : Type;
  Reader : Type;
  (* remotes.Resolver *)
  Resolver_Resolve : Resolver -> string -> World -> res (string * Descriptor) * World;
  Resolver_Fetcher : Resolver -> string -> World -> res Fetcher * World;
  Resolver_Pusher : Resolver -> string -> World -> res Pusher * World;
  (* docker.NewResolver(docker.ResolverOptions{Client: http.DefaultClient}) *)
  docker_NewResolver : Resolver;
  (* c.ContentStore(), c.ImageService() *)
  Client_ContentStore : Client -> ContentStore;
  Client_ImageService : Client -> ImageStore;
  (* images.Store: Update(ctx, image, "target") and Create(ctx, image) *)
  ImageStore_Update : ImageStore -> Image -> World -> res Image * World;
  ImageStore_Create : ImageStore -> Image -> World -> res Image * World;
  (* image.Unpack(ctx, snapshotterName) *)
  image_Unpack : Client -> Image -> string -> World -> option error * World;
  (* the transfer of one blob from the fetcher into the store *)
  remotes_fetch : ContentStore -> Fetcher -> Descriptor -> World -> option error * World;
  (* images.ChildrenHandler(provider), applied to a descriptor *)
  images_Children : ContentStore -> Descriptor -> World -> (list Descriptor * option error) * World;
  (* remotes.PushHandler(provider, pusher), applied to a descriptor *)
  remotes_push : ContentStore -> Pusher -> Descriptor -> World -> (list Descriptor * option error) * World;
  (* schema1.NewConverter(store, fetcher), its Handle and Convert *)
  schema1_NewConverter : ContentStore -> Fetcher -> Converter;
  Converter_Handle : Converter -> Descriptor -> World -> (list Descriptor * option error) * World;
  Converter_Convert : Converter -> World -> res Descriptor * World;
  (* reference.Parse(ref), of which only the Object field is used *)
  reference_Parse : string -> res string;
  (* c.importFromOCITar(ctx, ref, reader, iopts) *)
  importFromOCITar : Client -> string -> Reader -> importOpts -> World -> res Image * World
}.

Section Model.
Context `{Collab : Collaborators}.

(** ** State and monad *)

(** What a call of [Pull] or [Push] can change: the outside world, the
    trace, and [manifestStack], the local slice of [Push] that its filter
    handler closes over. *)
Record State := mkState {
  world : World;
  manifestStack : list Descriptor;
  trace : list Event
}.

Definition setWorld (w : World) (s : State) : State :=
  mkState w (manifestStack s) (trace s).

Definition logged (ev : Event) (w : World) (s : State) : State :=
  mkState w (manifestStack s) (trace s ++ [ev]).

(** A computation returns a value or an error together with the new state;
    [None] is the absence of a return (the traversal ran out of fuel, or a
    slice index was out of range). *)
Definition M (A : Type) : Type := State -> option (res A * State).

#[export] Instance M_ret : MRet M := fun A a s => Some (Ok a, s).

#[export] Instance M_bind : MBind M := fun A B k m s =>
  match m s with
  | None => None
  | Some (Ok a, s') => k a s'
  | Some (Fail err, s') => Some (Fail err, s')
  end.

(** A call of a collaborator that returns [(value, err)]. *)
Definition call {A} (ev : Event) (op : World -> res A * World) : M A :=
  fun s => let (r, w) := op (world s) in Some (r, logged ev w s).

(** A call of a collaborator that returns only [err]. *)
Definition callE (ev : Event) (op : World -> option error * World) : M unit :=
  fun s => let (r, w) := op (world s) in
           Some (match r with None => Ok tt | Some err => Fail err end, logged ev w s).

(** ** Handlers *)

(** [images.HandlerFunc]: [(children, err)] and the new state. *)
Definition HandlerResult : Type := list Descriptor * option error.
Definition HandlerFunc : Type := Descriptor -> State -> HandlerResult * State.

(** A handler supplied by the caller ([RemoteContext.BaseHandlers]): it
    sees the outside world only. *)
Definition BaseHandler : Type := Descriptor -> World -> HandlerResult * World.

(** [RemoteContext] *)
Record RemoteContext := mkRemoteContext {
  CtxResolver : Resolver;
  Unpack : bool;
  Snapshotter : string;
  BaseHandlers : list BaseHandler;
  ConvertSchema1 : bool
}.

(** [RemoteOpts]: a function of the client and of a pointer to the
    context that returns an error; the error it returns and the context it
    leaves behind. *)
Definition RemoteOpts : Type :=
  Client -> RemoteContext -> World -> (option error * RemoteContext) * World.

Definition defaultRemoteContext : RemoteContext :=
  mkRemoteContext docker_NewResolver false EmptyString [] false.

Definition WithPullUnpack : RemoteOpts := fun client c w =>
  (None, mkRemoteContext (CtxResolver c) true (Snapshotter c) (BaseHandlers c) (ConvertSchema1 c), w).

Definition WithPullSnapshotter (snapshotterName : string) : RemoteOpts := fun client c w =>
  (None, mkRemoteContext (CtxResolver c) (Unpack c) snapshotterName (BaseHandlers c) (ConvertSchema1 c), w).

Definition WithSchema1Conversion : RemoteOpts := fun client c w =>
  (None, mkRemoteContext (CtxResolver c) (Unpack c) (Snapshotter c) (BaseHandlers c) true, w).

Definition WithResolver (resolver : Resolver) : RemoteOpts := fun client c w =>
  (None, mkRemoteContext resolver (Unpack c) (Snapshotter c) (BaseHandlers c) (ConvertSchema1 c), w).

Definition WithImageHandler (h : BaseHandler) : RemoteOpts := fun client c w =>
  (None, mkRemoteContext (CtxResolver c) (Unpack c) (Snapshotter c) (BaseHandlers c ++ [h]) (ConvertSchema1 c), w).

(** The option loop that opens both [Pull] and [Push]:
    [for _, o := range opts { if err := o(c, ctx); err != nil { return err } }]. *)
Fixpoint applyOpts (c : Client) (opts : list RemoteOpts) (ctx : RemoteContext) : M RemoteContext :=
  match opts with
  | [] => mret ctx
  | o :: opts' => fun s =>
      match o c ctx (world s) with
      | (Some err, _, w) => Some (Fail err, setWorld w s)
      | (None, ctx', w) => applyOpts c opts' ctx' (setWorld w s)
      end
  end.

(** The handlers a chain is made of. *)
Inductive Handler :=
| Base (h : BaseHandler)
| FetchHandler (store : ContentStore) (fetcher : Fetcher)
| ChildrenHandler (store : ContentStore)
| Schema1Handler (conv : Converter)
| filterHandler
| PushHandler (store : ContentStore) (pusher : Pusher).

(** The [switch desc.MediaType] of the filter handler of [Push]. *)
Definition isManifestLike (mediaType : string) : bool :=
  String.eqb mediaType MediaTypeDockerSchema2Manifest
  || String.eqb mediaType MediaTypeImageManifest
  || String.eqb mediaType MediaTypeDockerSchema2ManifestList
  || String.eqb mediaType MediaTypeImageIndex.

(** The closure [filterHandler] of [Push]: a manifest-like descriptor is
    appended to [manifestStack] and the chain is stopped. *)
Definition runFilterHandler : HandlerFunc := fun desc s =>
  if isManifestLike (MediaType desc)
  then (([], Some StopHandler), mkState (world s) (manifestStack s ++ [desc]) (trace s))
  else (([], None), s).

(** The error with which a schema 1 manifest is turned down: the "not
    supported error" of the comments on [RemoteContext.ConvertSchema1] and
    [WithSchema1Conversion], [UnsupportedFormat] in the spec. *)
Definition errNotSupported (mediaType : string) : error :=
  ErrorString (mediaType +:+ " not supported").

(** Modelled from the spec: [remotes.FetchHandler] is not in client.go.
    It is the handler that fetches a blob into the content store (section
    4.3, step 4); a schema 1 manifest that reaches it is refused before
    anything is transferred (section 4.3, step 3, and the comment on
    [RemoteContext.ConvertSchema1]: schema 1 is not supported). *)
Definition runFetchHandler (store : ContentStore) (fetcher : Fetcher) : HandlerFunc := fun desc s =>
  if String.eqb (MediaType desc) MediaTypeDockerSchema1Manifest
  then (([], Some (errNotSupported (MediaType desc))), s)
  else let (err, w) := remotes_fetch store fetcher desc (world s) in
       (([], err), logged (EvFetch desc) w s).

(** [images.ChildrenHandler(store)], [schema1Converter] as a handler,
    [remotes.PushHandler(cs, pusher)] and a base handler: one call of the
    collaborator each. *)
Definition runChildrenHandler (store : ContentStore) : HandlerFunc := fun desc s =>
  let (r, w) := images_Children store desc (world s) in (r, logged (EvChildren desc) w s).

Definition runSchema1Handler (conv : Converter) : HandlerFunc := fun desc s =>
  let (r, w) := Converter_Handle conv desc (world s) in (r, logged (EvSchema1Handle desc) w s).

Definition runPushHandler (store : ContentStore) (pusher : Pusher) : HandlerFunc := fun desc s =>
  let (r, w) := remotes_push store pusher desc (world s) in (r, logged (EvUpload desc r.2) w s).

Definition runBase (h : BaseHandler) : HandlerFunc := fun desc s =>
  let (r, w) := h desc (world s) in (r, setWorld w s).

Definition Handle (h : Handler) : HandlerFunc :=
  match h with
  | Base h => runBase h
  | FetchHandler store fetcher => runFetchHandler store fetcher
  | ChildrenHandler store => runChildrenHandler store
  | Schema1Handler conv => runSchema1Handler conv
  | filterHandler => runFilterHandler
  | PushHandler store pusher => runPushHandler store pusher
  end.

(** Modelled from the spec: [images.Handlers] is not in client.go.  The
    members run in the configured order on the same descriptor and their
    children are concatenated; a member that returns the stop signal
    short-circuits the members after it; a hard error is propagated at once
    (section 4.1).  The children gathered before the stop are kept and the
    stop is not passed on as an error: the push scenario of section 8
    (the layers below a root manifest are uploaded during the traversal)
    needs the children of a stopped manifest to be walked. *)
Fixpoint handlersFrom (handlers : list HandlerFunc) (children : list Descriptor) : HandlerFunc :=
  fun desc s =>
  match handlers with
  | [] => ((children, None), s)
  | handler :: rest =>
      match handler desc s with
      | ((ch, None), s') => handlersFrom rest (children ++ ch) desc s'
      | ((_, Some err), s') =>
          if IsStopHandler err then ((children, None), s') else (([], Some err), s')
      end
  end.

(** Modelled from the spec: [images.Handlers(handlers...)], the chain that
    starts with no children. *)
Definition Handlers (handlers : list Handler) : HandlerFunc :=
  handlersFrom (map Handle handlers) [].

(** Modelled from the spec: [images.Dispatch] is not in client.go.  The
    handler is invoked on every descriptor of the frontier and the walk
    recurses into the children it returns; the first hard error fails the
    whole dispatch (section 4.2).  The Go dispatcher runs the descriptors
    of a frontier concurrently; this is the schedule that takes them one
    after the other, depth first.  [fuel] bounds the depth of the walk. *)
Fixpoint dispatchEach (recurse : list Descriptor -> M unit) (handler : HandlerFunc)
    (descs : list Descriptor) : M unit := fun s =>
  match descs with
  | [] => Some (Ok tt, s)
  | desc :: rest =>
      match handler desc s with
      | ((_, Some err), s1) => Some (Fail err, s1)
      | ((children, None), s1) =>
          match children with
          | [] => dispatchEach recurse handler rest s1
          | _ :: _ =>
              match recurse children s1 with
              | None => None
              | Some (Fail err, s2) => Some (Fail err, s2)
              | Some (Ok _, s2) => dispatchEach recurse handler rest s2
              end
          end
      end
  end.

(** Modelled from the spec: [images.Dispatch(ctx, handler, descs...)] with
    [fuel] levels of recursion left. *)
Fixpoint Dispatch (fuel : nat) (handler : HandlerFunc) (descs : list Descriptor) : M unit :=
  match fuel with
  | O => fun _ => None
  | S fuel' => dispatchEach (Dispatch fuel' handler) handler descs
  end.

(** ** Pull *)

(** Lines 373-385: the handler chain of a pull, and the converter when
    one is installed. *)
Definition pullHandlers (pullCtx : RemoteContext) (store : ContentStore) (fetcher : Fetcher)
    (desc : Descriptor) : option Converter * list Handler :=
  if String.eqb (MediaType desc) MediaTypeDockerSchema1Manifest && ConvertSchema1 pullCtx
  then let schema1Converter := schema1_NewConverter store fetcher in
       (Some schema1Converter,
        map Base (BaseHandlers pullCtx) ++ [Schema1Handler schema1Converter])
  else (None,
        map Base (BaseHandlers pullCtx) ++ [FetchHandler store fetcher; ChildrenHandler store]).

(** Lines 362-395: resolve the reference, walk the content graph, and
    convert the root when a converter was installed. *)
Definition pullContent (c : Client) (fuel : nat) (ref : string) (pullCtx : RemoteContext)
    : M (string * Descriptor) :=
  let store := Client_ContentStore c in
  '(name, desc) ← call (EvResolve ref) (Resolver_Resolve (CtxResolver pullCtx) ref);
  fetcher ← call (EvFetcher name) (Resolver_Fetcher (CtxResolver pullCtx) name);
  let '(schema1Converter, handlers) := pullHandlers pullCtx store fetcher desc in
  _ ← Dispatch fuel (Handlers handlers) [desc];
  desc ← match schema1Converter with
         | Some conv => call EvSchema1Convert (Converter_Convert conv)
         | None => mret desc
         end;
  mret (name, desc).

(** Lines 402-416: update the record, create it when the update says that
    there is none. *)
Definition upsertImage (c : Client) (imgrec : Image) : M Image := fun s =>
  let is_ := Client_ImageService c in
  match ImageStore_Update is_ imgrec (world s) with
  | (Ok updated, w) => Some (Ok updated, logged (EvUpdate imgrec) w s)
  | (Fail err, w) =>
      if negb (IsNotFound err)
      then Some (Fail err, logged (EvUpdate imgrec) w s)
      else call (EvCreate imgrec) (ImageStore_Create is_ imgrec) (logged (EvUpdate imgrec) w s)
  end.

(** Lines 418-427. *)
Definition unpackImage (c : Client) (pullCtx : RemoteContext) (img : Image) : M Image :=
  if Unpack pullCtx
  then _ ← callE (EvUnpack img (Snapshotter pullCtx)) (image_Unpack c img (Snapshotter pullCtx));
       mret img
  else mret img.

Definition Pull (c : Client) (fuel : nat) (ref : string) (opts : list RemoteOpts) : M Image :=
  pullCtx ← applyOpts c opts defaultRemoteContext;
  '(name, desc) ← pullContent c fuel ref pullCtx;
  let imgrec := mkImage name desc in
  img ← upsertImage c imgrec;
  unpackImage c pullCtx img.

(** ** Push *)

(** [manifestStack := []ocispec.Descriptor{}] *)
Definition newManifestStack : M unit := fun s =>
  Some (Ok tt, mkState (world s) [] (trace s)).

(** Lines 474-479: [for i := len(manifestStack) - 1; i >= 0; i--]; the
    argument is [i + 1]. *)
Fixpoint pushManifestsFrom (pushHandler : HandlerFunc) (n : nat) : M unit := fun s =>
  match n with
  | O => Some (Ok tt, s)
  | S i =>
      match manifestStack s !! i with
      | None => None
      | Some desc =>
          match pushHandler desc s with
          | ((_, Some err), s') => Some (Fail err, s')
          | ((_, None), s') => pushManifestsFrom pushHandler i s'
          end
      end
  end.

Definition pushManifests (pushHandler : HandlerFunc) : M unit := fun s =>
  pushManifestsFrom pushHandler (length (manifestStack s)) s.

Definition pushHandlers (pushCtx : RemoteContext) (cs : ContentStore) (pusher : Pusher)
    : list Handler :=
  map Base (BaseHandlers pushCtx) ++ [ChildrenHandler cs; filterHandler; PushHandler cs pusher].

Definition Push (c : Client) (fuel : nat) (ref : string) (desc : Descriptor)
    (opts : list RemoteOpts) : M unit :=
  pushCtx ← applyOpts c opts defaultRemoteContext;
  pusher ← call (EvPusher ref) (Resolver_Pusher (CtxResolver pushCtx) ref);
  _ ← newManifestStack;
  let cs := Client_ContentStore c in
  let pushHandler := Handle (PushHandler cs pusher) in
  _ ← Dispatch fuel (Handlers (pushHandlers pushCtx cs pusher)) [desc];
  pushManifests pushHandler.

(** ** Import and Export *)

(** [ImportOpt], [ExportOpt]: the error returned and the options left
    behind. *)
Definition ImportOpt : Type := importOpts -> option error * importOpts.
Definition ExportOpt : Type := exportOpts -> option error * exportOpts.

Definition WithOCIImportFormat : ImportOpt := fun c =>
  if negb (String.eqb (imp_format c) EmptyString)
  then (Some (ErrorString "format already set"), c)
  else (None, mkImportOpts ociImageFormat (imp_refObject c)).

Definition WithRefObject (refObject : string) : ImportOpt := fun c =>
  (None, mkImportOpts (imp_format c) refObject).

Definition WithOCIExportFormat : ExportOpt := fun c =>
  if negb (String.eqb (exp_format c) EmptyString)
  then (Some (ErrorString "format already set"), c)
  else (None, mkExportOpts ociImageFormat).

(** [for _, o := range opts { if err := o(&iopts); err != nil { return iopts, err } }] *)
Fixpoint applyImportOpts (opts : list ImportOpt) (iopts : importOpts) : importOpts * option error :=
  match opts with
  | [] => (iopts, None)
  | o :: opts' =>
      match o iopts with
      | (Some err, iopts') => (iopts', Some err)
      | (None, iopts') => applyImportOpts opts' iopts'
      end
  end.

Definition resolveImportOpt (ref : string) (opts : list ImportOpt) : importOpts * option error :=
  match applyImportOpts opts (mkImportOpts EmptyString EmptyString) with
  | (iopts, Some err) => (iopts, Some err)
  | (iopts, None) =>
      (* use OCI as the default format *)
      let iopts :=
        if String.eqb (imp_format iopts) EmptyString
        then mkImportOpts ociImageFormat (imp_refObject iopts) else iopts in
      (* if refObject is not explicitly specified, use the one specified in ref *)
      if String.eqb (imp_refObject iopts) EmptyString
      then match reference_Parse ref with
           | Fail err => (iopts, Some err)
           | Ok object => (mkImportOpts (imp_format iopts) object, None)
           end
      else (iopts, None)
  end.

(** [errors.Errorf("unsupported format: %s", format)] *)
Definition errUnsupportedFormat (format : imageFormat) : error :=
  ErrorString ("unsupported format: " +:+ format).

Definition Import (c : Client) (ref : string) (reader : Reader) (opts : list ImportOpt) : M Image :=
  match resolveImportOpt ref opts with
  | (_, Some err) => fun s => Some (Fail err, s)
  | (iopts, None) =>
      if String.eqb (imp_format iopts) ociImageFormat
      then call (EvImportOCI ref) (importFromOCITar c ref reader iopts)
      else fun s => Some (Fail (errUnsupportedFormat (imp_format iopts)), s)
  end.

Fixpoint applyExportOpts (opts : list ExportOpt) (eopts : exportOpts) : exportOpts * option error :=
  match opts with
  | [] => (eopts, None)
  | o :: opts' =>
      match o eopts with
      | (Some err, eopts') => (eopts', Some err)
      | (None, eopts') => applyExportOpts opts' eopts'
      end
  end.

(** What [Export] hands back: the read end of a pipe into which a
    goroutine writes [c.exportToOCITar(ctx, desc, pw, eopts)]. *)
Record PipeReader := mkPipeReader {
  pr_desc : Descriptor;
  pr_eopts : exportOpts
}.

(** [Export] returns [(io.ReadCloser, error)]; the work of the goroutine
    it starts happens after it has returned. *)
Definition Export (c : Client) (desc : Descriptor) (opts : list ExportOpt)
    : option PipeReader * option error :=
  match applyExportOpts opts (mkExportOpts EmptyString) with
  | (_, Some err) => (None, Some err)
  | (eopts, None) =>
      (* use OCI as the default format *)
      let eopts := if String.eqb (exp_format eopts) EmptyString then mkExportOpts ociImageFormat else eopts in
      if String.eqb (exp_format eopts) ociImageFormat
      then (Some (mkPipeReader desc eopts), None)
      else (None, Some (errUnsupportedFormat (exp_format eopts)))
  end.

(** ** Vocabulary of the statements *)

(** [extends P s s']: the trace of [s'] is the trace of [s] followed by
    events that all satisfy [P]. *)
Definition extends (P : Event -> Prop) (s s' : State) : Prop :=
  exists t, trace s' = trace s ++ t /\ Forall P t.

(** The events that handlers record. *)
Definition fromHandler (ev : Event) : Prop :=
  match ev with
  | EvFetch _ | EvChildren _ | EvSchema1Handle _ | EvUpload _ _ => True
  | _ => False
  end.

(** The events of lines 362-395 of Pull. *)
Definition fromContent (ev : Event) : Prop :=
  match ev with
  | EvResolve _ | EvFetcher _ | EvSchema1Convert => True
  | _ => fromHandler ev
  end.

(** A handler that records only events satisfying [P]. *)
Definition appendsOnly (P : Event -> Prop) (handler : HandlerFunc) : Prop :=
  forall desc s, extends P s (handler desc s).2.

(** An event that is not the upload of a manifest-like descriptor. *)
Definition notManifestUpload (ev : Event) : Prop :=
  match ev with
  | EvUpload desc _ => isManifestLike (MediaType desc) = false
  | _ => True
  end.

(** A handler applied to the descriptors of a list, one after the other,
    up to the first error. *)
Fixpoint uploadAll (pushHandler : HandlerFunc) (descs : list Descriptor) : M unit := fun s =>
  match descs with
  | [] => Some (Ok tt, s)
  | desc :: rest =>
      match pushHandler desc s with
      | ((_, Some err), s') => Some (Fail err, s')
      | ((_, None), s') => uploadAll pushHandler rest s'
      end
  end.

(** The base handlers all return without error on [desc]; the world they
    leave behind. *)
Fixpoint passBase (hs : list BaseHandler) (desc : Descriptor) (w : World) : option World :=
  match hs with
  | [] => Some w
  | h :: hs' =>
      match h desc w with
      | ((_, None), w') => passBase hs' desc w'
      | ((_, Some _), _) => None
      end
  end.

End Model.


(** ** A reference image metadata service *)

(** Modelled from the spec: the image metadata registry is reached through
    [c.ImageService()] and is not in client.go.  Section 6: update on a
    record that does not exist fails with a NotFound-kind error, update on
    an existing record replaces its target. *)
Definition registryUpdate (img : Image) (reg : gmap string Image) : res Image * gmap string Image :=
  match reg !! Name img with
  | Some old => let new := mkImage (Name old) (Target img) in (Ok new, <[Name img := new]> reg)
  | None => (Fail (ErrNotFound ("image " +:+ Name img +:+ ": not found")), reg)
  end.

(** Modelled from the spec: create of the image metadata registry
    (section 6); it refuses a name that has a record. *)
Definition registryCreate (img : Image) (reg : gmap string Image) : res Image * gmap string Image :=
  match reg !! Name img with
  | Some _ => (Fail (ErrorString ("image " +:+ Name img +:+ ": already exists")), reg)
  | None => (Ok img, <[Name img := img]> reg)
  end.

(** An operation of [C] and an operation of the registry, on the pair of
    the world of [C] and the registry. *)
Definition onWorld {C : Collaborators} {A} (op : @World C -> A * @World C)
    : @World C * gmap string Image -> A * (@World C * gmap string Image) :=
  fun wr => let (a, w) := op wr.1 in (a, (w, wr.2)).

Definition onRegistry {C : Collaborators} {A} (op : gmap string Image -> A * gmap string Image)
    : @World C * gmap string Image -> A * (@World C * gmap string Image) :=
  fun wr => let (a, r) := op wr.2 in (a, (wr.1, r)).

(** Modelled from the spec: the collaborators [C] with the registry above
    as their image metadata service. *)
Definition withRegistry (C : Collaborators) : Collaborators := {|
  World := @World C * gmap string Image;
  Client := @Client C;
  Resolver := @Resolver C;
  Fetcher := @Fetcher C;
  Pusher := @Pusher C;
  ContentStore := @ContentStore C;
  ImageStore := @ImageStore C;
  Converter := @Converter C;
  Reader := @Reader C;
  Resolver_Resolve r ref := onWorld (Resolver_Resolve r ref);
  Resolver_Fetcher r name := onWorld (Resolver_Fetcher r name);
  Resolver_Pusher r ref := onWorld (Resolver_Pusher r ref);
  docker_NewResolver := docker_NewResolver;
  Client_ContentStore := Client_ContentStore;
  Client_ImageService := Client_ImageService;
  ImageStore_Update _ img := onRegistry (registryUpdate img);
  ImageStore_Create _ img := onRegistry (registryCreate img);
  image_Unpack c img snapshotter := onWorld (image_Unpack c img snapshotter);
  remotes_fetch store fetcher desc := onWorld (remotes_fetch store fetcher desc);
  images_Children store desc := onWorld (images_Children store desc);
  remotes_push store pusher desc := onWorld (remotes_push store pusher desc);
  schema1_NewConverter := schema1_NewConverter;
  Converter_Handle conv desc := onWorld (Converter_Handle conv desc);
  Converter_Convert conv := onWorld (Converter_Convert conv);
  reference_Parse := reference_Parse;
  importFromOCITar c ref reader iopts := onWorld (importFromOCITar c ref reader iopts)
|}.

(** ** A small world to run the client in *)

Module Demo.

Definition index := mkDescriptor MediaTypeImageIndex "sha256:index" 310.
Definition manifest := mkDescriptor MediaTypeImageManifest "sha256:manifest" 528.
Definition config := mkDescriptor "application/vnd.oci.image.config.v1+json" "sha256:config" 1472.
Definition layer := mkDescriptor "application/vnd.oci.image.layer.v1.tar+gzip" "sha256:layer" 2811478.
Definition legacy := mkDescriptor MediaTypeDockerSchema1Manifest "sha256:legacy" 2467.
Definition broken := mkDescriptor MediaTypeImageManifest "sha256:broken" 528.
Definition corrupt := mkDescriptor "application/vnd.oci.image.layer.v1.tar+gzip" "sha256:corrupt" 977.
Definition garbled := mkDescriptor MediaTypeDockerSchema1Manifest "sha256:garbled" 2466.
Definition converted := mkDescriptor MediaTypeDockerSchema2Manifest "sha256:converted" 733.

(** The world is the list of digests in the local content store; the
    image service of [base] is out of order, [env] has the reference
    registry in its place.  A resolver is reachable ([true]) or hands out no fetcher and no pusher
    ([false]); a pusher accepts manifests ([true]) or refuses the
    manifest [sha256:manifest] ([false]); the schema 1 converter cannot
    convert the manifest [sha256:garbled]. *)
Definition resolve (ref : string) : res (string * Descriptor) :=
  if String.eqb ref "example.com/app:missing" then Fail (ErrorString "example.com/app:missing: not found")
  else if String.eqb ref "example.com/app:legacy" then Ok (ref, legacy)
  else if String.eqb ref "example.com/app:garbled" then Ok (ref, garbled)
  else if String.eqb ref "example.com/app:broken" then Ok (ref, broken)
  else Ok (ref, index).

Definition children (desc : Descriptor) : list Descriptor :=
  if String.eqb (Digest desc) "sha256:index" then [manifest]
  else if String.eqb (Digest desc) "sha256:manifest" then [config; layer]
  else if String.eqb (Digest desc) "sha256:broken" then [config; corrupt]
  else [].

Definition base : Collaborators := {|
  World := list string;
  Client := unit;
  Resolver := bool;
  Fetcher := unit;
  Pusher := bool;
  ContentStore := unit;
  ImageStore := unit;
  Converter := unit;
  Reader := unit;
  Resolver_Resolve _ ref w := (resolve ref, w);
  Resolver_Fetcher r name w :=
    (if r then Ok tt else Fail (ErrorString "no fetcher"), w);
  Resolver_Pusher r ref w :=
    (if r then Ok (negb (String.eqb ref "example.com/strict:latest"))
     else Fail (ErrorString "no pusher"), w);
  docker_NewResolver := true;
  Client_ContentStore _ := tt;
  Client_ImageService _ := tt;
  ImageStore_Update _ img w := (Fail (ErrorString "metadata service unavailable"), w);
  ImageStore_Create _ img w := (Fail (ErrorString "metadata service unavailable"), w);
  image_Unpack _ img snapshotter w :=
    (if String.eqb snapshotter "overlayfs" then None
     else Some (ErrorString ("snapshotter " +:+ snapshotter +:+ " not loaded")), w);
  remotes_fetch _ _ desc w :=
    if String.eqb (Digest desc) "sha256:corrupt"
    then (Some (ErrorString "sha256:corrupt: digest mismatch"), w)
    else (None, w ++ [Digest desc]);
  images_Children _ desc w := ((children desc, None), w);
  remotes_push _ pusher desc w :=
    if negb pusher && String.eqb (Digest desc) "sha256:manifest"
    then (([], Some (ErrorString "sha256:manifest: denied")), w)
    else (([], None), w);
  schema1_NewConverter _ _ := tt;
  Converter_Handle _ desc w := (([], None), w ++ [Digest desc]);
  Converter_Convert _ w :=
    if existsb (String.eqb "sha256:garbled") w
    then (Fail (ErrorString "sha256:garbled: unexpected end of JSON input"), w)
    else (Ok converted, w ++ [Digest converted]);
  reference_Parse ref := if String.eqb ref EmptyString then Fail (ErrorString "invalid reference") else Ok "latest";
  importFromOCITar _ ref _ iopts w := (Ok (mkImage ref index), w ++ [Digest index])
|}.

Definition env : Collaborators := withRegistry base.

Definition latest := "example.com/app:latest".
Definition strict := "example.com/strict:latest".
Definition record := mkImage latest index.

(** Nothing in the content store, no image recorded. *)
Definition empty : @World env := ([], ∅).

Definition start : @State env := @mkState env empty [] [].

(** A registry in which [latest] points at the legacy manifest. *)
Definition stale : gmap string Image := <[latest := mkImage latest legacy]> ∅.

(** The state in which lines 362-395 of a pull of [latest] end, over the
    registry [reg]. *)
Definition fetched (reg : gmap string Image) : @State env :=
  @mkState env
    (["sha256:index"; "sha256:manifest"; "sha256:config"; "sha256:layer"], reg) []
    [EvResolve latest; EvFetcher latest;
     EvFetch index; EvChildren index; EvFetch manifest; EvChildren manifest;
     EvFetch config; EvChildren config; EvFetch layer; EvChildren layer].

(** The state after the upsert, reached with the calls [calls]. *)
Definition recorded (reg : gmap string Image) (calls : list Event) : @State env :=
  @mkState env
    (["sha256:index"; "sha256:manifest"; "sha256:config"; "sha256:layer"],
     <[latest := record]> reg) []
    (trace (fetched reg) ++ calls).

(** The state in which the traversal of a push of [index] to [ref]
    ends. *)
Definition walked (ref : string) : @State env :=
  @mkState env ([], ∅) [index; manifest]
    [EvPusher ref; EvChildren index; EvChildren manifest;
     EvChildren config; EvUpload config None; EvChildren layer; EvUpload layer None].

(** Options a caller could write. *)
Definition failingOpt : @RemoteOpts env := fun _ c w =>
  (Some (ErrorString "bad option"), c, w).

Definition failingHandler : @BaseHandler env := fun desc w =>
  (([], Some (ErrorString "handler refused")), w).

Definition loggingHandler : @BaseHandler env := fun desc w =>
  (([], None), w).

Definition WithDockerImportFormat : ImportOpt := fun c =>
  (None, mkImportOpts "docker" (imp_refObject c)).

Definition WithDockerExportFormat : ExportOpt := fun c =>
  (None, mkExportOpts "docker").

End Demo.

(** ** The options of the package, as values

    client.go defines five [RemoteOpts], two [ImportOpt] and one
    [ExportOpt]; a caller can write others.  The statements about what the
    package's own options do range over lists of these values. *)

Section PackageOptions.
Context `{Collab : Collaborators}.

Inductive RemoteOption :=
| OptPullUnpack
| OptPullSnapshotter (snapshotterName : string)
| OptSchema1Conversion
| OptResolver (resolver : Resolver)
| OptImageHandler (h : BaseHandler).

Definition remoteOpts (o : RemoteOption) : RemoteOpts :=
  match o with
  | OptPullUnpack => WithPullUnpack
  | OptPullSnapshotter snapshotterName => WithPullSnapshotter snapshotterName
  | OptSchema1Conversion => WithSchema1Conversion
  | OptResolver resolver => WithResolver resolver
  | OptImageHandler h => WithImageHandler h
  end.

(** What a list of options asks for, read off the list alone. *)
Definition asksUnpack (l : list RemoteOption) : bool :=
  existsb (fun o => match o with OptPullUnpack => true | _ => false end) l.

Definition asksConversion (l : list RemoteOption) : bool :=
  existsb (fun o => match o with OptSchema1Conversion => true | _ => false end) l.

Fixpoint lastPullSnapshotter (l : list RemoteOption) (default : string) : string :=
  match l with
  | [] => default
  | OptPullSnapshotter snapshotterName :: l' => lastPullSnapshotter l' snapshotterName
  | _ :: l' => lastPullSnapshotter l' default
  end.

Fixpoint lastResolver (l : list RemoteOption) (default : Resolver) : Resolver :=
  match l with
  | [] => default
  | OptResolver resolver :: l' => lastResolver l' resolver
  | _ :: l' => lastResolver l' default
  end.

Fixpoint imageHandlers (l : list RemoteOption) : list BaseHandler :=
  match l with
  | [] => []
  | OptImageHandler h :: l' => h :: imageHandlers l'
  | _ :: l' => imageHandlers l'
  end.

(** The options [Push] reads: it looks at the resolver and at the base
    handlers of its context only. *)
Definition readByPush (o : RemoteOption) : bool :=
  match o with OptResolver _ | OptImageHandler _ => true | _ => false end.

Inductive ImportOption :=
| OptOCIImportFormat
| OptRefObject (refObject : string).

Definition importOpt (o : ImportOption) : ImportOpt :=
  match o with
  | OptOCIImportFormat => WithOCIImportFormat
  | OptRefObject refObject => WithRefObject refObject
  end.

Fixpoint formatOptions (l : list ImportOption) : nat :=
  match l with
  | [] => 0
  | OptOCIImportFormat :: l' => S (formatOptions l')
  | OptRefObject _ :: l' => formatOptions l'
  end.

Fixpoint lastRefObject (l : list ImportOption) (default : string) : string :=
  match l with
  | [] => default
  | OptRefObject refObject :: l' => lastRefObject l' refObject
  | OptOCIImportFormat :: l' => lastRefObject l' default
  end.

(** The events of lines 362-395 of a pull whose chain is the one
    [pullHandlers] builds: no upload, no registry operation, no unpack. *)
Definition fromWalk (ev : Event) : Prop :=
  match ev with
  | EvResolve _ | EvFetcher _ | EvFetch _ | EvChildren _ | EvSchema1Handle _
  | EvSchema1Convert => True
  | _ => False
  end.

(** The image service answers the upsert of [imgrec] in the world [w] with
    the record [img], by the calls [record]: the update returns it, or the
    update says that there is no such record and the create returns it. *)
Definition recordedAs (c : Client) (imgrec img : Image) (w : World) (record : list Event)
    : Prop :=
  (∃ w', ImageStore_Update (Client_ImageService c) imgrec w = (Ok img, w')
         ∧ record = [EvUpdate imgrec])
  ∨ (∃ err w1 w',
       ImageStore_Update (Client_ImageService c) imgrec w = (Fail err, w1)
       ∧ IsNotFound err = true
       ∧ ImageStore_Create (Client_ImageService c) imgrec w1 = (Ok img, w')
       ∧ record = [EvUpdate imgrec; EvCreate imgrec]).

(** The events of a push. *)
Definition fromPush (ev : Event) : Prop :=
  match ev with
  | EvPusher _ | EvChildren _ | EvUpload _ _ => True
  | _ => False
  end.

(** The upload of a manifest-like descriptor. *)
Definition manifestUpload (ev : Event) : Prop :=
  match ev with
  | EvUpload desc _ => isManifestLike (MediaType desc) = true
  | _ => False
  end.

(** A handler after which [R] relates the state it found to the state it
    left. *)
Definition respects (R : State -> State -> Prop) (handler : HandlerFunc) : Prop :=
  forall desc s, R s (handler desc s).2.

(** The manifest stack holds manifest-like descriptors only. *)
Definition stackOfManifests (s : State) : Prop :=
  Forall (fun desc => isManifestLike (MediaType desc) = true) (manifestStack s).

End PackageOptions.

(** ** Client construction and containers *)

(** [grpc.DialOption]: the options [New] builds, and [OtherDialOption]
    for those a caller brings.  An interceptor is known by the namespace
    [newNSInterceptors] built it for, [WithDialer] is the option that
    installs the package's [dialer]. *)
Inductive DialOption :=
| WithBlock
| WithInsecure
| WithTimeout (seconds : Z)
| FailOnNonTempDialError (f : bool)
| WithDialer
| WithUnaryInterceptor (ns : string)
| WithStreamInterceptor (ns : string)
| OtherDialOption (tag : string).

Record clientOpts := mkClientOpts {
  co_defaultns : string;
  co_dialOptions : list DialOption
}.

(** [ClientOpt]: the error returned and the options left behind. *)
Definition ClientOpt : Type := clientOpts -> option error * clientOpts.

Definition WithDefaultNamespace (ns : string) : ClientOpt := fun c =>
  (None, mkClientOpts ns (co_dialOptions c)).

Definition WithDialOpts (opts : list DialOption) : ClientOpt := fun c =>
  (None, mkClientOpts (co_defaultns c) opts).

(** An error as [New] returns it: as it came, or wrapped by
    [errors.Wrapf(err, format, arg)]. *)
Inductive wrapped :=
| AsIs (err : error)
| Wrapf (cause : error) (format : string) (arg : string).

Module containers.

(** [containers.Container]: the fields the client sets.  [Runtime] is the
    [Name] of the [RuntimeInfo]; the [Labels] of a container nobody
    labelled are the nil map. *)
Record Container := mkContainer {
  ID : string;
  Labels : gmap string string;
  Image : string;
  Runtime : string;
  RootFS : string;
  Snapshotter : string
}.

End containers.

(** The calls the client makes on the daemon, in call order. *)
Inductive Call :=
| CallDial (target : string) (gopts : list DialOption)
| CallMounts (snapshotter key : string)
| CallPrepare (snapshotter key parent : string)
| CallView (snapshotter key parent : string)
| CallRootFS (img : Image)
| CallCreate (container : containers.Container).

(** The calls the container options of the package make. *)
Definition isOptionCall (ev : Call) : bool :=
  match ev with
  | CallMounts _ _ | CallPrepare _ _ _ | CallView _ _ _ | CallRootFS _ => true
  | _ => false
  end.

(** The daemon behind a connection: the state [Host] of the daemon and of
    the network, and the services reached through a [grpc.ClientConn]. *)
Class Daemon := {
  Host : Type;
  Conn : Type;
  (* dialAddress(address) and grpc.Dial(target, gopts...) *)
  dialAddress : string -> string;
  grpc_Dial : string -> list DialOption -> Host -> res Conn * Host;
  (* plugin.RuntimePlugin and runtime.GOOS *)
  plugin_RuntimePlugin : string;
  runtime_GOOS : string;
  (* client.SnapshotService(name): Mounts(ctx, key), Prepare(ctx, key, parent),
     View(ctx, key, parent); what they return beside the error is dropped *)
  Snapshotter_Mounts : Conn -> string -> string -> Host -> option error * Host;
  Snapshotter_Prepare : Conn -> string -> string -> string -> Host -> option error * Host;
  Snapshotter_View : Conn -> string -> string -> string -> Host -> option error * Host;
  (* the RootFS method of an image record, on client.ContentStore() *)
  Image_RootFS : Conn -> Image -> Host -> res (list string) * Host;
  (* identity.ChainID(diffIDs).String() *)
  identity_ChainID : list string -> string;
  (* c.ContainerService().Create(ctx, container) *)
  ContainerStore_Create : Conn -> containers.Container -> Host -> res containers.Container * Host
}.

Module containerd.

(** The struct [Client]. *)
Record Client `{D : Daemon} := mkClient {
  conn : Conn;
  defaultns : string;
  runtime : string
}.
Arguments mkClient {D} conn defaultns runtime.
Arguments conn {D} c.
Arguments defaultns {D} c.
Arguments runtime {D} c.

End containerd.

Section Daemon.
Context `{D : Daemon}.

Record Session := mkSession {
  host : Host;
  calls : list Call
}.

(** A call of a service. *)
Definition invoke {A} (ev : Call) (op : Host -> A * Host) (s : Session) : A * Session :=
  let (a, h) := op (host s) in (a, mkSession h (calls s ++ [ev])).

(** *** New *)

(** [for _, o := range opts { if err := o(&copts); err != nil { return nil, err } }] *)
Fixpoint applyClientOpts (opts : list ClientOpt) (copts : clientOpts) : clientOpts * option error :=
  match opts with
  | [] => (copts, None)
  | o :: opts' =>
      match o copts with
      | (Some err, copts') => (copts', Some err)
      | (None, copts') => applyClientOpts opts' copts'
      end
  end.

(** Lines 98-114: the dial options [New] passes to [grpc.Dial]. *)
Definition dialOptionsOf (copts : clientOpts) : list DialOption :=
  let gopts := [WithBlock; WithInsecure; WithTimeout 100; FailOnNonTempDialError true; WithDialer] in
  let gopts := if 0 <? length (co_dialOptions copts) then co_dialOptions copts else gopts in
  if negb (String.eqb (co_defaultns copts) EmptyString)
  then gopts ++ [WithUnaryInterceptor (co_defaultns copts); WithStreamInterceptor (co_defaultns copts)]
  else gopts.

Definition NewWithConn (conn : Conn) (opts : list ClientOpt) : option containerd.Client * option error :=
  (Some (containerd.mkClient conn EmptyString (plugin_RuntimePlugin +:+ "." +:+ runtime_GOOS)), None).

Definition New (address : string) (opts : list ClientOpt) (s : Session)
    : (option containerd.Client * option wrapped) * Session :=
  match applyClientOpts opts (mkClientOpts EmptyString []) with
  | (_, Some err) => ((None, Some (AsIs err)), s)
  | (copts, None) =>
      let gopts := dialOptionsOf copts in
      match invoke (CallDial (dialAddress address) gopts) (grpc_Dial (dialAddress address) gopts) s with
      | (Fail err, s') => ((None, Some (Wrapf err "failed to dial %q" address)), s')
      | (Ok conn, s') =>
          let (client, err) := NewWithConn conn opts in
          ((client, option_map AsIs err), s')
      end
  end.

(** *** NewContainer *)

(** [NewContainerOpts]: the error returned and the container left
    behind. *)
Definition NewContainerOpts : Type :=
  containerd.Client -> containers.Container -> Session ->
  (option error * containers.Container) * Session.

Definition WithContainerLabels (labels : gmap string string) : NewContainerOpts := fun _ c s =>
  ((None, containers.mkContainer (containers.ID c) labels (containers.Image c)
            (containers.Runtime c) (containers.RootFS c) (containers.Snapshotter c)), s).

Definition WithSnapshot (id : string) : NewContainerOpts := fun client c s =>
  (* check that the snapshot exists, if not, fail on creation *)
  match invoke (CallMounts (containers.Snapshotter c) id)
               (Snapshotter_Mounts (containerd.conn client) (containers.Snapshotter c) id) s with
  | (Some err, s') => ((Some err, c), s')
  | (None, s') =>
      ((None, containers.mkContainer (containers.ID c) (containers.Labels c) (containers.Image c)
                (containers.Runtime c) id (containers.Snapshotter c)), s')
  end.

(** [WithNewSnapshot] and [WithNewSnapshotView] reach the image record
    behind the [Image] they are given through a type assertion; the
    argument here is that record. *)
Definition WithNewSnapshot (id : string) (i : Image) : NewContainerOpts := fun client c s =>
  match invoke (CallRootFS i) (Image_RootFS (containerd.conn client) i) s with
  | (Fail err, s1) => ((Some err, c), s1)
  | (Ok diffIDs, s1) =>
      match invoke (CallPrepare (containers.Snapshotter c) id (identity_ChainID diffIDs))
                   (Snapshotter_Prepare (containerd.conn client) (containers.Snapshotter c) id
                      (identity_ChainID diffIDs)) s1 with
      | (Some err, s2) => ((Some err, c), s2)
      | (None, s2) =>
          ((None, containers.mkContainer (containers.ID c) (containers.Labels c) (Name i)
                    (containers.Runtime c) id (containers.Snapshotter c)), s2)
      end
  end.

Definition WithNewSnapshotView (id : string) (i : Image) : NewContainerOpts := fun client c s =>
  match invoke (CallRootFS i) (Image_RootFS (containerd.conn client) i) s with
  | (Fail err, s1) => ((Some err, c), s1)
  | (Ok diffIDs, s1) =>
      match invoke (CallView (containers.Snapshotter c) id (identity_ChainID diffIDs))
                   (Snapshotter_View (containerd.conn client) (containers.Snapshotter c) id
                      (identity_ChainID diffIDs)) s1 with
      | (Some err, s2) => ((Some err, c), s2)
      | (None, s2) =>
          ((None, containers.mkContainer (containers.ID c) (containers.Labels c) (Name i)
                    (containers.Runtime c) id (containers.Snapshotter c)), s2)
      end
  end.

Definition WithRuntime (name : string) : NewContainerOpts := fun client c s =>
  ((None, containers.mkContainer (containers.ID c) (containers.Labels c) (containers.Image c)
            name (containers.RootFS c) (containers.Snapshotter c)), s).

Definition WithSnapshotter (name : string) : NewContainerOpts := fun client c s =>
  ((None, containers.mkContainer (containers.ID c) (containers.Labels c) (containers.Image c)
            (containers.Runtime c) (containers.RootFS c) name), s).

Definition WithImage (i : Image) : NewContainerOpts := fun client c s =>
  ((None, containers.mkContainer (containers.ID c) (containers.Labels c) (Name i)
            (containers.Runtime c) (containers.RootFS c) (containers.Snapshotter c)), s).

(** [for _, o := range opts { if err := o(ctx, c, &container); err != nil { return nil, err } }] *)
Fixpoint applyContainerOpts (c : containerd.Client) (opts : list NewContainerOpts)
    (container : containers.Container) (s : Session)
    : (option error * containers.Container) * Session :=
  match opts with
  | [] => ((None, container), s)
  | o :: opts' =>
      match o c container s with
      | ((Some err, container'), s') => ((Some err, container'), s')
      | ((None, container'), s') => applyContainerOpts c opts' container' s'
      end
  end.

(** [NewContainer] returns [containerFromRecord(c, r)], the record [r]
    with the client beside it. *)
Definition NewContainer (c : containerd.Client) (id : string) (opts : list NewContainerOpts)
    (s : Session) : res containers.Container * Session :=
  let container :=
    containers.mkContainer id ∅ EmptyString (containerd.runtime c) EmptyString EmptyString in
  match applyContainerOpts c opts container s with
  | ((Some err, _), s') => (Fail err, s')
  | ((None, container), s') =>
      invoke (CallCreate container) (ContainerStore_Create (containerd.conn c) container) s'
  end.

(** *** The container options of the package, as values *)

Inductive ContainerOption :=
| OptContainerLabels (labels : gmap string string)
| OptSnapshot (id : string)
| OptNewSnapshot (id : string) (i : Image)
| OptNewSnapshotView (id : string) (i : Image)
| OptRuntime (name : string)
| OptSnapshotter (name : string)
| OptImage (i : Image).

Definition containerOpt (o : ContainerOption) : NewContainerOpts :=
  match o with
  | OptContainerLabels labels => WithContainerLabels labels
  | OptSnapshot id => WithSnapshot id
  | OptNewSnapshot id i => WithNewSnapshot id i
  | OptNewSnapshotView id i => WithNewSnapshotView id i
  | OptRuntime name => WithRuntime name
  | OptSnapshotter name => WithSnapshotter name
  | OptImage i => WithImage i
  end.

(** The options that call no service. *)
Definition isSetter (o : ContainerOption) : bool :=
  match o with
  | OptContainerLabels _ | OptRuntime _ | OptSnapshotter _ | OptImage _ => true
  | _ => false
  end.

(** The container a list of options describes, when every one of them
    returns without error: each field is what the last option that sets it
    gave. *)
Fixpoint described (l : list ContainerOption) (c : containers.Container) : containers.Container :=
  match l with
  | [] => c
  | o :: l' =>
      described l'
        (containers.mkContainer
           (containers.ID c)
           (match o with OptContainerLabels labels => labels | _ => containers.Labels c end)
           (match o with
            | OptNewSnapshot _ i | OptNewSnapshotView _ i | OptImage i => Name i
            | _ => containers.Image c
            end)
           (match o with OptRuntime name => name | _ => containers.Runtime c end)
           (match o with
            | OptSnapshot id | OptNewSnapshot id _ | OptNewSnapshotView id _ => id
            | _ => containers.RootFS c
            end)
           (match o with OptSnapshotter name => name | _ => containers.Snapshotter c end))
  end.

(** The container [NewContainer] starts from. *)
Definition blank (c : containerd.Client) (id : string) : containers.Container :=
  containers.mkContainer id ∅ EmptyString (containerd.runtime c) EmptyString EmptyString.

(** The client options of the package, as values. *)
Inductive ClientOption :=
| OptDefaultNamespace (ns : string)
| OptDialOpts (opts : list DialOption).

Definition clientOpt (o : ClientOption) : ClientOpt :=
  match o with
  | OptDefaultNamespace ns => WithDefaultNamespace ns
  | OptDialOpts opts => WithDialOpts opts
  end.

Fixpoint lastNamespace (l : list ClientOption) (default : string) : string :=
  match l with
  | [] => default
  | OptDefaultNamespace ns :: l' => lastNamespace l' ns
  | OptDialOpts _ :: l' => lastNamespace l' default
  end.

Fixpoint lastDialOpts (l : list ClientOption) (default : list DialOption) : list DialOption :=
  match l with
  | [] => default
  | OptDialOpts opts :: l' => lastDialOpts l' opts
  | OptDefaultNamespace _ :: l' => lastDialOpts l' default
  end.

End Daemon.

(** ** A small daemon to create containers in *)

Module DemoDaemon.

Definition socket := "/run/containerd/containerd.sock".

(** The host is the list of what exists on it: a snapshot is written
    [snapshotter/key], a container [container/id].  The daemon listens on
    [socket]; the only image whose root filesystem can be read is
    [Demo.record], which has one layer. *)
Definition daemon : Daemon := {|
  Host := list string;
  Conn := unit;
  dialAddress address := "unix://" +:+ address;
  grpc_Dial target gopts h :=
    if String.eqb target ("unix://" +:+ socket) then (Ok tt, h)
    else (Fail (ErrorString "connection refused"), h);
  plugin_RuntimePlugin := "io.containerd.runtime.v1";
  runtime_GOOS := "linux";
  Snapshotter_Mounts _ snapshotter key h :=
    if existsb (String.eqb (snapshotter +:+ "/" +:+ key)) h then (None, h)
    else (Some (ErrNotFound ("snapshot " +:+ key +:+ " does not exist")), h);
  Snapshotter_Prepare _ snapshotter key parent h :=
    if existsb (String.eqb (snapshotter +:+ "/" +:+ key)) h
    then (Some (ErrorString ("snapshot " +:+ key +:+ " already exists")), h)
    else (None, h ++ [snapshotter +:+ "/" +:+ key]);
  Snapshotter_View _ snapshotter key parent h :=
    if existsb (String.eqb (snapshotter +:+ "/" +:+ key)) h
    then (Some (ErrorString ("snapshot " +:+ key +:+ " already exists")), h)
    else (None, h ++ [snapshotter +:+ "/" +:+ key]);
  Image_RootFS _ img h :=
    if String.eqb (Name img) Demo.latest then (Ok ["sha256:layer"], h)
    else (Fail (ErrNotFound ("image " +:+ Name img +:+ ": not found")), h);
  identity_ChainID diffIDs := match diffIDs with [diffID] => diffID | _ => "sha256:chain" end;
  ContainerStore_Create _ container h :=
    (Ok container, h ++ ["container/" +:+ containers.ID container])
|}.

Definition client : @containerd.Client daemon :=
  @containerd.mkClient daemon tt EmptyString "io.containerd.runtime.v1.linux".

(** A host with the snapshot [base] in the default snapshotter. *)
Definition start : @Session daemon := @mkSession daemon ["/base"] [].

Definition failingClientOpt : ClientOpt := fun c =>
  (Some (ErrorString "bad option"), c).

(** The container [web] with the given image, runtime, root filesystem
    and snapshotter, and no labels. *)
Definition web (image runtime rootfs snapshotter : string) : containers.Container :=
  containers.mkContainer "web" ∅ image runtime rootfs snapshotter.

End DemoDaemon.

(** ** Properties *)

Section Properties.
Context `{Collab : Collaborators}.

(** *** The monad *)

Lemma bind_Ok {A B} (m : M A) (k : A → M B) (s s' : State) (a : A) :
  m s = Some (Ok a, s') → (m ≫= k) s = k a s'.
Proof. intros Hm. unfold mbind, M_bind. by rewrite Hm. Qed.

Lemma bind_Fail {A B} (m : M A) (k : A → M B) (s s' : State) (err : error) :
  m s = Some (Fail err, s') → (m ≫= k) s = Some (Fail err, s').
Proof. intros Hm. unfold mbind, M_bind. by rewrite Hm. Qed.

Lemma bind_inv {A B} (m : M A) (k : A → M B) (s s' : State) (r : res B) :
  (m ≫= k) s = Some (r, s') →
  (∃ a s1, m s = Some (Ok a, s1) ∧ k a s1 = Some (r, s'))
  ∨ (∃ err, m s = Some (Fail err, s') ∧ r = Fail err).
Proof.
  unfold mbind, M_bind. destruct (m s) as [[[a|err] s1]|] eqn:Hm; intros Hk.
  - left. eauto.
  - right. exists err. by inversion Hk.
  - discriminate.
Qed.

(** *** What a run adds to the trace *)

Lemma extends_refl P s : extends P s s.
Proof. exists []. split; [by rewrite app_nil_r | constructor]. Qed.

Lemma extends_trans P s1 s2 s3 : extends P s1 s2 → extends P s2 s3 → extends P s1 s3.
Proof.
  intros (t1 & E1 & F1) (t2 & E2 & F2). exists (t1 ++ t2). split.
  - by rewrite E2, E1, app_assoc.
  - by apply Forall_app.
Qed.

Lemma extends_logged (P : Event → Prop) ev w s : P ev → extends P s (logged ev w s).
Proof. intros HP. exists [ev]. split; [done | by repeat constructor]. Qed.

Lemma extends_setWorld P w s : extends P s (setWorld w s).
Proof. exists []. split; [by rewrite app_nil_r | constructor]. Qed.

Lemma extends_impl (P Q : Event → Prop) s s' :
  (∀ ev, P ev → Q ev) → extends P s s' → extends Q s s'.
Proof. intros HPQ (t & E & F). exists t. split; [done | by eapply Forall_impl]. Qed.

(** *** The option loop *)

Lemma applyOpts_silent c opts ctx s r s' :
  applyOpts c opts ctx s = Some (r, s') →
  trace s' = trace s ∧ manifestStack s' = manifestStack s.
Proof.
  revert ctx s. induction opts as [|o opts IH]; intros ctx s; simpl.
  - by intros [= _ <-].
  - destruct (o c ctx (world s)) as [[[err|] ctx'] w].
    + by intros [= _ <-].
    + intros Hrun. by apply IH in Hrun.
Qed.

Lemma applyOpts_app c pre post ctx s ctx' s' :
  applyOpts c pre ctx s = Some (Ok ctx', s') →
  applyOpts c (pre ++ post) ctx s = applyOpts c post ctx' s'.
Proof.
  revert ctx s. induction pre as [|o pre IH]; intros ctx s; simpl.
  - by intros [= -> ->].
  - destruct (o c ctx (world s)) as [[[err|] ctx1] w]; [done | apply IH].
Qed.

(** *** The filter handler of Push *)

(** C2: on a descriptor whose media type is one of the four manifest-like
    types the filter handler appends the descriptor to the manifest stack
    and returns the stop signal with no children; on any other descriptor
    it returns no children and no error and leaves the state, and with it
    the manifest stack, as it was. *)
Theorem filterHandler_collects_manifests (desc : Descriptor) (s : State) :
  (MediaType desc ∈ [MediaTypeDockerSchema2Manifest; MediaTypeImageManifest;
                     MediaTypeDockerSchema2ManifestList; MediaTypeImageIndex] →
   Handle filterHandler desc s
   = (([], Some StopHandler), mkState (world s) (manifestStack s ++ [desc]) (trace s)))
  ∧ (MediaType desc ∉ [MediaTypeDockerSchema2Manifest; MediaTypeImageManifest;
                       MediaTypeDockerSchema2ManifestList; MediaTypeImageIndex] →
     Handle filterHandler desc s = (([], None), s)).
Proof.
  assert (Hlike : isManifestLike (MediaType desc) = true ↔
    MediaType desc ∈ [MediaTypeDockerSchema2Manifest; MediaTypeImageManifest;
                      MediaTypeDockerSchema2ManifestList; MediaTypeImageIndex]).
  { unfold isManifestLike. rewrite !orb_true_iff, !String.eqb_eq.
    rewrite !elem_of_cons, elem_of_nil. tauto. }
  simpl. unfold runFilterHandler. split; intros Hmt.
  - apply Hlike in Hmt. by rewrite Hmt.
  - destruct (isManifestLike (MediaType desc)) eqn:E; [|done].
    exfalso. apply Hmt, Hlike. done.
Qed.

(** *** A failing option *)

(** C10: when an option function returns an error while the remote context
    is built, Pull and Push return that error at once.  The state they
    return in is the one the failing option left: nothing was added to the
    trace, so no resolver, dispatcher, content store or image service call
    was made. *)
Theorem failing_option_stops_the_call (c : Client) (fuel : nat) (ref : string)
    (desc : Descriptor) (pre post : list RemoteOpts) (o : RemoteOpts)
    (ctx ctx' : RemoteContext) (s0 s1 : State) (err : error) (w : World) :
  applyOpts c pre defaultRemoteContext s0 = Some (Ok ctx, s1) →
  o c ctx (world s1) = (Some err, ctx', w) →
  Pull c fuel ref (pre ++ o :: post) s0 = Some (Fail err, setWorld w s1)
  ∧ Push c fuel ref desc (pre ++ o :: post) s0 = Some (Fail err, setWorld w s1)
  ∧ trace (setWorld w s1) = trace s0.
Proof.
  intros Hpre Ho.
  assert (Hopts : applyOpts c (pre ++ o :: post) defaultRemoteContext s0
                  = Some (Fail err, setWorld w s1)).
  { rewrite (applyOpts_app _ _ _ _ _ _ _ Hpre). simpl. by rewrite Ho. }
  split; [|split].
  - unfold Pull. by apply bind_Fail.
  - unfold Push. by apply bind_Fail.
  - simpl. apply applyOpts_silent in Hpre. tauto.
Qed.

(** *** What a traversal records *)

Lemma Handle_fromHandler (h : Handler) : appendsOnly fromHandler (Handle h).
Proof.
  intros desc s. destruct h; simpl.
  - unfold runBase. destruct (h desc (world s)). apply extends_setWorld.
  - unfold runFetchHandler. destruct (String.eqb _ _); [apply extends_refl|].
    destruct (remotes_fetch _ _ _ _). by apply extends_logged.
  - unfold runChildrenHandler. destruct (images_Children _ _ _). by apply extends_logged.
  - unfold runSchema1Handler. destruct (Converter_Handle _ _ _). by apply extends_logged.
  - unfold runFilterHandler. destruct (isManifestLike _); simpl.
    + exists []. simpl. split; [by rewrite app_nil_r | constructor].
    + apply extends_refl.
  - unfold runPushHandler. destruct (remotes_push _ _ _ _). by apply extends_logged.
Qed.

Lemma handlersFrom_appendsOnly (P : Event → Prop) (hs : list HandlerFunc) :
  Forall (appendsOnly P) hs → ∀ children, appendsOnly P (handlersFrom hs children).
Proof.
  induction 1 as [|h hs Hh _ IH]; intros children desc s; simpl.
  - apply extends_refl.
  - specialize (Hh desc s).
    destruct (h desc s) as [[ch [err|]] s1]; simpl in *.
    + by destruct (IsStopHandler err).
    + eapply extends_trans; [exact Hh | apply IH].
Qed.

Lemma appendsOnly_impl (P Q : Event → Prop) (handler : HandlerFunc) :
  (∀ ev, P ev → Q ev) → appendsOnly P handler → appendsOnly Q handler.
Proof. intros HPQ Hh desc s. eapply extends_impl; [exact HPQ | apply Hh]. Qed.

Lemma Handlers_fromHandler (hs : list Handler) : appendsOnly fromHandler (Handlers hs).
Proof.
  apply handlersFrom_appendsOnly, Forall_fmap, Forall_forall.
  intros h _. apply Handle_fromHandler.
Qed.

Lemma dispatchEach_extends (P : Event → Prop) (recurse : list Descriptor → M unit)
    (handler : HandlerFunc) :
  appendsOnly P handler →
  (∀ descs s r s', recurse descs s = Some (r, s') → extends P s s') →
  ∀ descs s r s', dispatchEach recurse handler descs s = Some (r, s') → extends P s s'.
Proof.
  intros Hh Hrec descs. induction descs as [|desc rest IH]; intros s r s'; simpl.
  - intros [= _ <-]. apply extends_refl.
  - specialize (Hh desc s).
    destruct (handler desc s) as [[children [err|]] s1]; simpl in Hh.
    + by intros [= _ <-].
    + destruct children as [|child children].
      * intros Hrest. eapply extends_trans; [exact Hh | by eapply IH].
      * destruct (recurse (child :: children) s1) as [[[[]|err] s2]|] eqn:Hsub; [| |done].
        -- intros Hrest. eapply extends_trans; [exact Hh|].
           eapply extends_trans; [by eapply Hrec | by eapply IH].
        -- intros [= _ <-]. eapply extends_trans; [exact Hh | by eapply Hrec].
Qed.

Lemma Dispatch_extends (P : Event → Prop) (handler : HandlerFunc) (fuel : nat) :
  appendsOnly P handler →
  ∀ descs s r s', Dispatch fuel handler descs s = Some (r, s') → extends P s s'.
Proof.
  intros Hh. induction fuel as [|fuel IH]; simpl; [done|].
  by apply dispatchEach_extends.
Qed.

(** *** Pull: resolution and traversal *)

Lemma extends_from (P : Event → Prop) (s0 s1 s' : State) :
  trace s1 = trace s0 → extends P s1 s' → extends P s0 s'.
Proof. intros E (t & Ht & F). exists t. by rewrite <- E. Qed.

Lemma Pull_after_opts c fuel ref opts s0 ctx s1 :
  applyOpts c opts defaultRemoteContext s0 = Some (Ok ctx, s1) →
  Pull c fuel ref opts s0
  = ('(name, desc) ← pullContent c fuel ref ctx;
     img ← upsertImage c (mkImage name desc);
     unpackImage c ctx img) s1.
Proof. intros Hopts. unfold Pull. by rewrite (bind_Ok _ _ _ _ _ Hopts). Qed.

Lemma Pull_after_content c fuel ref opts s0 ctx s1 name desc s2 :
  applyOpts c opts defaultRemoteContext s0 = Some (Ok ctx, s1) →
  pullContent c fuel ref ctx s1 = Some (Ok (name, desc), s2) →
  Pull c fuel ref opts s0
  = (img ← upsertImage c (mkImage name desc); unpackImage c ctx img) s2.
Proof.
  intros Hopts Hcontent. rewrite (Pull_after_opts _ _ _ _ _ _ _ Hopts).
  by rewrite (bind_Ok _ _ _ _ _ Hcontent).
Qed.

Lemma pullContent_resolved c fuel ref ctx s1 name desc w2 fetcher w3 :
  Resolver_Resolve (CtxResolver ctx) ref (world s1) = (Ok (name, desc), w2) →
  Resolver_Fetcher (CtxResolver ctx) name w2 = (Ok fetcher, w3) →
  pullContent c fuel ref ctx s1
  = (_ ← Dispatch fuel (Handlers (pullHandlers ctx (Client_ContentStore c) fetcher desc).2) [desc];
     desc' ← match (pullHandlers ctx (Client_ContentStore c) fetcher desc).1 with
             | Some conv => call EvSchema1Convert (Converter_Convert conv)
             | None => mret desc
             end;
     mret (name, desc'))
    (logged (EvFetcher name) w3 (logged (EvResolve ref) w2 s1)).
Proof.
  intros Hres Hfet. unfold pullContent.
  unfold mbind at 1. unfold M_bind at 1. unfold call at 1. rewrite Hres.
  unfold mbind at 1. unfold M_bind at 1. unfold call at 1. cbn [world logged]. rewrite Hfet.
  by destruct (pullHandlers _ _ _ _).
Qed.

Lemma call_extends {A} (P : Event → Prop) ev (op : World → res A * World) s r s' :
  P ev → call ev op s = Some (r, s') → extends P s s'.
Proof.
  intros HP. unfold call. destruct (op (world s)) as [r1 w].
  intros [= _ <-]. by apply extends_logged.
Qed.

Lemma bind_extends {A B} (P : Event → Prop) (m : M A) (k : A → M B) s r s' :
  (∀ r1 s1, m s = Some (r1, s1) → extends P s s1) →
  (∀ a s1, m s = Some (Ok a, s1) → k a s1 = Some (r, s') → extends P s1 s') →
  (m ≫= k) s = Some (r, s') → extends P s s'.
Proof.
  intros Hm Hk Hrun.
  apply bind_inv in Hrun as [(a & s1 & Hms & Hks)|(err & Hms & _)].
  - eapply extends_trans; [by eapply Hm | by eapply Hk].
  - by eapply Hm.
Qed.

Lemma pullContent_fromContent c fuel ref ctx s r s' :
  pullContent c fuel ref ctx s = Some (r, s') → extends fromContent s s'.
Proof.
  unfold pullContent. apply bind_extends.
  { intros r1 s1. by apply call_extends. }
  intros [name desc] s1 _. apply bind_extends.
  { intros r2 s2. by apply call_extends. }
  intros fetcher s2 _. destruct (pullHandlers _ _ _ _) as [conv handlers].
  apply bind_extends.
  { intros r3 s3. apply Dispatch_extends.
    eapply appendsOnly_impl; [|apply Handlers_fromHandler]. by intros []. }
  intros [] s3 _. apply bind_extends.
  { intros r4 s4. destruct conv as [conv|].
    - by apply call_extends.
    - intros [= _ <-]. apply extends_refl. }
  intros desc' s4 _ [= _ <-]. apply extends_refl.
Qed.

(** What it takes for lines 362-395 to hand a name and a target to the
    upsert: the reference resolves, a fetcher is had, the traversal
    succeeds and, when a converter was installed, so does the conversion. *)
Lemma pullContent_Ok_inv c fuel ref ctx s1 name desc s2 :
  pullContent c fuel ref ctx s1 = Some (Ok (name, desc), s2) →
  ∃ desc0 w2 fetcher w3 s4,
    Resolver_Resolve (CtxResolver ctx) ref (world s1) = (Ok (name, desc0), w2)
    ∧ Resolver_Fetcher (CtxResolver ctx) name w2 = (Ok fetcher, w3)
    ∧ Dispatch fuel (Handlers (pullHandlers ctx (Client_ContentStore c) fetcher desc0).2) [desc0]
        (logged (EvFetcher name) w3 (logged (EvResolve ref) w2 s1)) = Some (Ok tt, s4)
    ∧ match (pullHandlers ctx (Client_ContentStore c) fetcher desc0).1 with
      | Some conv =>
          ∃ w5, Converter_Convert conv (world s4) = (Ok desc, w5)
                ∧ s2 = logged EvSchema1Convert w5 s4
      | None => desc = desc0 ∧ s2 = s4
      end.
Proof.
  unfold pullContent. intros Hrun.
  apply bind_inv in Hrun as [([name0 desc0] & s1' & Hres & Hrun)|(err & _ & [=])].
  unfold call in Hres. destruct (Resolver_Resolve _ _ _) as [r1 w2] eqn:Eres.
  injection Hres as -> <-.
  apply bind_inv in Hrun as [(fetcher & s2' & Hfet & Hrun)|(err & _ & [=])].
  unfold call in Hfet. cbn [world logged] in Hfet.
  destruct (Resolver_Fetcher _ _ _) as [r2 w3] eqn:Efet.
  injection Hfet as -> <-.
  destruct (pullHandlers _ _ _ _) as [conv handlers] eqn:Ehandlers.
  apply bind_inv in Hrun as [([] & s4 & Hdis & Hrun)|(err & _ & [=])].
  apply bind_inv in Hrun as [(desc' & s5 & Hconv & Hret)|(err & _ & [=])].
  injection Hret as <- <- <-.
  exists desc0, w2, fetcher, w3, s4. rewrite Ehandlers. cbn [fst snd].
  split; [done|]. split; [done|]. split; [done|].
  destruct conv as [conv|].
  - unfold call in Hconv. destruct (Converter_Convert _ _) as [r5 w5].
    injection Hconv as -> <-. by exists w5.
  - by injection Hconv as <- <-.
Qed.

(** C6: when the resolution of the reference or the traversal returns a
    hard error, Pull returns that error, and nothing it recorded since it
    was called is an operation of the image metadata service: no record
    was created or updated. *)
Theorem failed_pull_leaves_registry_alone (c : Client) (fuel : nat) (ref : string)
    (opts : list RemoteOpts) (s0 s1 : State) (ctx : RemoteContext) :
  applyOpts c opts defaultRemoteContext s0 = Some (Ok ctx, s1) →
  (∀ err w,
     Resolver_Resolve (CtxResolver ctx) ref (world s1) = (Fail err, w) →
     Pull c fuel ref opts s0 = Some (Fail err, logged (EvResolve ref) w s1)
     ∧ extends (λ ev, isRegistryOp ev = false) s0 (logged (EvResolve ref) w s1))
  ∧ (∀ name desc w2 fetcher w3 err s4,
     Resolver_Resolve (CtxResolver ctx) ref (world s1) = (Ok (name, desc), w2) →
     Resolver_Fetcher (CtxResolver ctx) name w2 = (Ok fetcher, w3) →
     Dispatch fuel (Handlers (pullHandlers ctx (Client_ContentStore c) fetcher desc).2) [desc]
       (logged (EvFetcher name) w3 (logged (EvResolve ref) w2 s1)) = Some (Fail err, s4) →
     Pull c fuel ref opts s0 = Some (Fail err, s4)
     ∧ extends (λ ev, isRegistryOp ev = false) s0 s4).
Proof.
  intros Hopts.
  assert (Hquiet : ∀ err s', pullContent c fuel ref ctx s1 = Some (Fail err, s') →
            Pull c fuel ref opts s0 = Some (Fail err, s')
            ∧ extends (λ ev, isRegistryOp ev = false) s0 s').
  { intros err s' Hcontent. split.
    - rewrite (Pull_after_opts _ _ _ _ _ _ _ Hopts). by apply bind_Fail.
    - apply applyOpts_silent in Hopts as [Htrace _].
      apply (extends_from _ _ _ _ Htrace).
      eapply extends_impl; [|by eapply pullContent_fromContent].
      by intros []. }
  split.
  - intros err w Hres. apply Hquiet. unfold pullContent.
    apply bind_Fail. unfold call. by rewrite Hres.
  - intros name desc w2 fetcher w3 err s4 Hres Hfet Hdis. apply Hquiet.
    rewrite (pullContent_resolved _ _ _ _ _ _ _ _ _ _ Hres Hfet).
    by apply bind_Fail.
Qed.

(** *** Pull: schema 1 manifests *)

Lemma setWorld_world (s : State) : setWorld (world s) s = s.
Proof. by destruct s. Qed.

Lemma handlersFrom_passBase (bs : list BaseHandler) (rest : list HandlerFunc)
    (desc : Descriptor) (w4 : World) :
  ∀ children s, passBase bs desc (world s) = Some w4 →
  ∃ children', handlersFrom (map Handle (map Base bs) ++ rest) children desc s
               = handlersFrom rest children' desc (setWorld w4 s).
Proof.
  induction bs as [|h bs IH]; intros children s; simpl.
  - intros [= <-]. exists children. by rewrite setWorld_world.
  - unfold runBase. destruct (h desc (world s)) as [[ch [err|]] w']; [done|].
    intros Hpass. destruct (IH (children ++ ch) (setWorld w' s) Hpass) as [children' Heq].
    exists children'. by rewrite Heq.
Qed.

(** C4, as amended: when the resolved root descriptor is a Docker schema 1
    manifest, conversion is not enabled, the resolver hands out a fetcher
    and every base handler returns without error on the root, Pull returns
    the not-supported error of the fetch handler, and the trace shows the
    resolution and the fetcher request only: nothing was written into the
    content store. *)
Theorem schema1_without_conversion_is_refused (c : Client) (fuel : nat) (ref : string)
    (opts : list RemoteOpts) (s0 s1 : State) (ctx : RemoteContext)
    (name : string) (desc : Descriptor) (fetcher : Fetcher) (w2 w3 w4 : World) :
  applyOpts c opts defaultRemoteContext s0 = Some (Ok ctx, s1) →
  Resolver_Resolve (CtxResolver ctx) ref (world s1) = (Ok (name, desc), w2) →
  MediaType desc = MediaTypeDockerSchema1Manifest →
  ConvertSchema1 ctx = false →
  Resolver_Fetcher (CtxResolver ctx) name w2 = (Ok fetcher, w3) →
  passBase (BaseHandlers ctx) desc w3 = Some w4 →
  Pull c (S fuel) ref opts s0
  = Some (Fail (errNotSupported MediaTypeDockerSchema1Manifest),
          mkState w4 (manifestStack s0) (trace s0 ++ [EvResolve ref; EvFetcher name]))
  ∧ extends (λ ev, isStoreWrite ev = false) s0
      (mkState w4 (manifestStack s0) (trace s0 ++ [EvResolve ref; EvFetcher name])).
Proof.
  intros Hopts Hres Hmt Hconv Hfet Hpass. split.
  - rewrite (Pull_after_opts _ _ _ _ _ _ _ Hopts). apply bind_Fail.
    rewrite (pullContent_resolved _ _ _ _ _ _ _ _ _ _ Hres Hfet). apply bind_Fail.
    unfold pullHandlers. rewrite Hconv, andb_false_r. cbn [snd Dispatch dispatchEach].
    unfold Handlers. rewrite map_app.
    destruct (handlersFrom_passBase (BaseHandlers ctx)
                (map Handle [FetchHandler (Client_ContentStore c) fetcher;
                             ChildrenHandler (Client_ContentStore c)])
                desc w4 [] (logged (EvFetcher name) w3 (logged (EvResolve ref) w2 s1)) Hpass)
      as [children' ->].
    cbn [map handlersFrom Handle]. unfold runFetchHandler.
    rewrite Hmt, String.eqb_refl. cbn.
    apply applyOpts_silent in Hopts as [Htrace Hstack].
    unfold setWorld, logged. cbn. by rewrite Htrace, Hstack, <- app_assoc.
  - exists [EvResolve ref; EvFetcher name]. split; [done | by repeat constructor].
Qed.

(** C5: when the resolved root descriptor is a Docker schema 1 manifest and
    conversion is enabled, the chain that Pull dispatches is the base
    handlers followed by the one handler of the schema 1 converter, with no
    fetch handler and no children handler in it; and when the traversal and
    the conversion succeed, the record that Pull upserts has the
    descriptor returned by the converter as its target. *)
Theorem schema1_conversion_replaces_fetch_chain (c : Client) (fuel : nat) (ref : string)
    (opts : list RemoteOpts) (s0 s1 : State) (ctx : RemoteContext)
    (name : string) (desc : Descriptor) (fetcher : Fetcher) (w2 : World) :
  applyOpts c opts defaultRemoteContext s0 = Some (Ok ctx, s1) →
  Resolver_Resolve (CtxResolver ctx) ref (world s1) = (Ok (name, desc), w2) →
  MediaType desc = MediaTypeDockerSchema1Manifest →
  ConvertSchema1 ctx = true →
  let store := Client_ContentStore c in
  let conv := schema1_NewConverter store fetcher in
  let chain := map Base (BaseHandlers ctx) ++ [Schema1Handler conv] in
  pullHandlers ctx store fetcher desc = (Some conv, chain)
  ∧ Forall (λ h, match h with
                 | FetchHandler _ _ | ChildrenHandler _ => False
                 | _ => True
                 end) chain
  ∧ (∀ w3 s4 desc' w5,
       Resolver_Fetcher (CtxResolver ctx) name w2 = (Ok fetcher, w3) →
       Dispatch fuel (Handlers chain) [desc]
         (logged (EvFetcher name) w3 (logged (EvResolve ref) w2 s1)) = Some (Ok tt, s4) →
       Converter_Convert conv (world s4) = (Ok desc', w5) →
       Pull c fuel ref opts s0
       = (img ← upsertImage c (mkImage name desc'); unpackImage c ctx img)
           (logged EvSchema1Convert w5 s4)).
Proof.
  intros Hopts Hres Hmt Hconv store conv chain.
  assert (Hchain : pullHandlers ctx store fetcher desc = (Some conv, chain)).
  { unfold pullHandlers. by rewrite Hmt, String.eqb_refl, Hconv. }
  split; [done|]. split.
  - apply Forall_app. split; [|by repeat constructor].
    apply Forall_fmap, Forall_forall. by intros h _.
  - intros w3 s4 desc' w5 Hfet Hdis Hcv.
    apply (Pull_after_content _ _ _ _ _ _ _ _ _ _ Hopts).
    rewrite (pullContent_resolved _ _ _ _ _ _ _ _ _ _ Hres Hfet).
    fold store. rewrite Hchain. cbn [fst snd].
    rewrite (bind_Ok _ _ _ _ _ Hdis).
    unfold mbind, M_bind, call. by rewrite Hcv.
Qed.

(** *** Pull: the image record *)

Lemma upsertImage_extends c imgrec s r s' :
  upsertImage c imgrec s = Some (r, s') →
  extends (λ ev, ev = EvUpdate imgrec ∨ ev = EvCreate imgrec) s s'.
Proof.
  unfold upsertImage. destruct (ImageStore_Update _ _ _) as [[updated|err] w].
  - intros [= _ <-]. apply extends_logged. by left.
  - destruct (negb (IsNotFound err)).
    + intros [= _ <-]. apply extends_logged. by left.
    + intros Hcreate. eapply extends_trans.
      * apply (extends_logged _ (EvUpdate imgrec)). by left.
      * eapply call_extends; [|exact Hcreate]. by right.
Qed.

End Properties.

Section RecordProperties.
Context `{Collab : Collaborators}.

Lemma unpackImage_keeps_registry (c : @Client (withRegistry Collab))
    (ctx : @RemoteContext (withRegistry Collab)) (img : Image)
    (s s' : @State (withRegistry Collab)) (r : res Image) :
  unpackImage c ctx img s = Some (r, s') → (world s').2 = (world s).2.
Proof.
  unfold unpackImage. destruct (Unpack ctx); [|by intros [= _ <-]].
  unfold mbind, M_bind, callE. cbn. unfold onWorld.
  destruct (image_Unpack _ _ _ _) as [[err|] w]; by intros [= _ <-].
Qed.

(** C3, as amended: after a successful traversal and, for a schema 1 root
    under conversion, a successful conversion, Pull calls Update on the
    record made of the resolved name and the resulting target.  An update
    that succeeds is the end of the upsert; an update that fails with an
    error that is not of the NotFound kind fails the pull with it, and
    Create is not called; an update that fails with a NotFound error is
    followed by Create, whose error, if any, fails the pull.  Over the
    reference registry this means: a name without a record gets the record
    created, and a name with a record gets the target of its record
    replaced, without any call of Create. *)
Theorem pull_upserts_image_record :
  (∀ (c : Client) (fuel : nat) (ref : string) (opts : list RemoteOpts)
     (s0 s1 s2 : State) (ctx : RemoteContext) (name : string) (desc : Descriptor),
     applyOpts c opts defaultRemoteContext s0 = Some (Ok ctx, s1) →
     pullContent c fuel ref ctx s1 = Some (Ok (name, desc), s2) →
     let imgrec := mkImage name desc in
     let images := Client_ImageService c in
     (∀ updated w,
        ImageStore_Update images imgrec (world s2) = (Ok updated, w) →
        Pull c fuel ref opts s0 = unpackImage c ctx updated (logged (EvUpdate imgrec) w s2))
     ∧ (∀ err w,
        ImageStore_Update images imgrec (world s2) = (Fail err, w) →
        IsNotFound err = false →
        Pull c fuel ref opts s0 = Some (Fail err, logged (EvUpdate imgrec) w s2))
     ∧ (∀ err w created w',
        ImageStore_Update images imgrec (world s2) = (Fail err, w) →
        IsNotFound err = true →
        ImageStore_Create images imgrec w = (Ok created, w') →
        Pull c fuel ref opts s0
        = unpackImage c ctx created
            (logged (EvCreate imgrec) w' (logged (EvUpdate imgrec) w s2)))
     ∧ (∀ err w err' w',
        ImageStore_Update images imgrec (world s2) = (Fail err, w) →
        IsNotFound err = true →
        ImageStore_Create images imgrec w = (Fail err', w') →
        Pull c fuel ref opts s0
        = Some (Fail err', logged (EvCreate imgrec) w' (logged (EvUpdate imgrec) w s2))))
  ∧ (∀ (c : @Client (withRegistry Collab)) (fuel : nat) (ref : string)
       (opts : list (@RemoteOpts (withRegistry Collab)))
       (s0 s1 s2 : @State (withRegistry Collab))
       (ctx : @RemoteContext (withRegistry Collab)) (name : string) (desc : Descriptor),
     applyOpts c opts defaultRemoteContext s0 = Some (Ok ctx, s1) →
     pullContent c fuel ref ctx s1 = Some (Ok (name, desc), s2) →
     let imgrec := mkImage name desc in
     let reg : gmap string Image := (world s2).2 in
     (reg !! name = None →
        Pull c fuel ref opts s0
        = unpackImage c ctx imgrec
            (@mkState (withRegistry Collab) ((world s2).1, <[name := imgrec]> reg)
               (manifestStack s2) (trace s2 ++ [EvUpdate imgrec; EvCreate imgrec]))
        ∧ ∀ r s', Pull c fuel ref opts s0 = Some (r, s') →
                  (world s').2 = <[name := imgrec]> reg)
     ∧ (∀ old, reg !! name = Some old →
        Pull c fuel ref opts s0
        = unpackImage c ctx (mkImage (Name old) desc)
            (@mkState (withRegistry Collab)
               ((world s2).1, <[name := mkImage (Name old) desc]> reg)
               (manifestStack s2) (trace s2 ++ [EvUpdate imgrec]))
        ∧ ∀ r s', Pull c fuel ref opts s0 = Some (r, s') →
                  (world s').2 = <[name := mkImage (Name old) desc]> reg)).
Proof.
  split.
  - intros c fuel ref opts s0 s1 s2 ctx name desc Hopts Hcontent imgrec images.
    rewrite (Pull_after_content _ _ _ _ _ _ _ _ _ _ Hopts Hcontent).
    fold imgrec. unfold mbind, M_bind, upsertImage, call. fold images.
    repeat split.
    + intros updated w ->. done.
    + intros err w -> ->. done.
    + intros err w created w' -> ->. cbn. by intros ->.
    + intros err w err' w' -> ->. cbn. by intros ->.
  - intros c fuel ref opts s0 s1 s2 ctx name desc Hopts Hcontent imgrec reg.
    rewrite (Pull_after_content _ _ _ _ _ _ _ _ _ _ Hopts Hcontent).
    fold imgrec. unfold mbind, M_bind, upsertImage, call. cbn.
    unfold onRegistry, registryUpdate, registryCreate. cbn. fold reg.
    split.
    + intros Hnone. rewrite Hnone. cbn. rewrite Hnone. unfold logged. cbn.
      rewrite <- app_assoc. cbn. split; [done|].
      intros r s' Hunpack. by apply unpackImage_keeps_registry in Hunpack.
    + intros old Hsome. rewrite Hsome. cbn. split; [done|].
      intros r s' Hunpack. by apply unpackImage_keeps_registry in Hunpack.
Qed.

(** *** Pull: unpacking *)

(** C8: when the Unpack option is set and the record has been upserted,
    Pull calls the unpacker on the upserted image with the snapshotter
    name of the context, after the upsert, and an error of the unpacker is
    the result of the pull; when the option is not set, Pull returns the
    upserted image, and no run of Pull, successful or not, records a call
    of the unpacker. *)
Theorem unpack_runs_only_on_request (c : Client) (fuel : nat) (ref : string)
    (opts : list RemoteOpts) (s0 s1 : State) (ctx : RemoteContext) :
  applyOpts c opts defaultRemoteContext s0 = Some (Ok ctx, s1) →
  (∀ name desc s2 img s3,
     pullContent c fuel ref ctx s1 = Some (Ok (name, desc), s2) →
     upsertImage c (mkImage name desc) s2 = Some (Ok img, s3) →
     (Unpack ctx = true →
      ∀ r w, image_Unpack c img (Snapshotter ctx) (world s3) = (r, w) →
        Pull c fuel ref opts s0
        = Some (match r with None => Ok img | Some err => Fail err end,
                logged (EvUnpack img (Snapshotter ctx)) w s3))
     ∧ (Unpack ctx = false → Pull c fuel ref opts s0 = Some (Ok img, s3)))
  ∧ (Unpack ctx = false →
     ∀ r s', Pull c fuel ref opts s0 = Some (r, s') →
       extends (λ ev, isUnpack ev = false) s0 s').
Proof.
  intros Hopts. split.
  - intros name desc s2 img s3 Hcontent Hupsert.
    rewrite (Pull_after_content _ _ _ _ _ _ _ _ _ _ Hopts Hcontent).
    rewrite (bind_Ok _ _ _ _ _ Hupsert). unfold unpackImage. split.
    + intros -> r w Hunpack. unfold mbind, M_bind, callE. rewrite Hunpack.
      by destruct r.
    + by intros ->.
  - intros Hoff r s'. rewrite (Pull_after_opts _ _ _ _ _ _ _ Hopts).
    apply applyOpts_silent in Hopts as [Htrace _].
    intros Hrun. apply (extends_from _ _ _ _ Htrace). revert Hrun.
    apply bind_extends.
    { intros r1 s2 Hcontent. eapply extends_impl; [|by eapply pullContent_fromContent].
      by intros []. }
    intros [name desc] s2 _. apply bind_extends.
    { intros r2 s3 Hupsert. eapply extends_impl; [|by eapply upsertImage_extends].
      by intros ev [-> | ->]. }
    intros img s3 _. unfold unpackImage. rewrite Hoff.
    intros [= _ <-]. apply extends_refl.
Qed.

End RecordProperties.

(** *** Push *)

Section PushProperties.
Context `{Collab : Collaborators}.

Lemma Push_after_pusher c fuel ref desc opts s0 s1 ctx pusher w2 :
  applyOpts c opts defaultRemoteContext s0 = Some (Ok ctx, s1) →
  Resolver_Pusher (CtxResolver ctx) ref (world s1) = (Ok pusher, w2) →
  Push c fuel ref desc opts s0
  = (_ ← Dispatch fuel (Handlers (pushHandlers ctx (Client_ContentStore c) pusher)) [desc];
     pushManifests (Handle (PushHandler (Client_ContentStore c) pusher)))
    (mkState w2 [] (trace s1 ++ [EvPusher ref])).
Proof.
  intros Hopts Hpusher. unfold Push. rewrite (bind_Ok _ _ _ _ _ Hopts).
  unfold mbind at 1. unfold M_bind at 1. unfold call at 1. rewrite Hpusher.
  unfold mbind at 1. unfold M_bind at 1. by cbn [newManifestStack world trace logged].
Qed.

Lemma runPushHandler_stack store pusher desc (s : State) :
  manifestStack (runPushHandler store pusher desc s).2 = manifestStack s.
Proof. unfold runPushHandler. by destruct (remotes_push _ _ _ _). Qed.

Lemma pushManifestsFrom_uploadAll (h : HandlerFunc) :
  (∀ desc s, manifestStack (h desc s).2 = manifestStack s) →
  ∀ (n : nat) s, (n ≤ length (manifestStack s))%nat →
  pushManifestsFrom h n s = uploadAll h (reverse (take n (manifestStack s))) s.
Proof.
  intros Hstack. induction n as [|i IH]; intros s Hn; [done|].
  destruct (lookup_lt_is_Some_2 (manifestStack s) i) as [desc Hdesc]; [lia|].
  rewrite (take_S_r _ _ _ Hdesc), reverse_snoc. simpl. rewrite Hdesc.
  specialize (Hstack desc s).
  destruct (h desc s) as [[children [err|]] s']; [done|]. simpl in Hstack.
  rewrite IH, Hstack; [done | rewrite Hstack; lia].
Qed.

Lemma pushManifests_uploadAll (h : HandlerFunc) (s : State) :
  (∀ desc s, manifestStack (h desc s).2 = manifestStack s) →
  pushManifests h s = uploadAll h (reverse (manifestStack s)) s.
Proof.
  intros Hstack. unfold pushManifests.
  rewrite pushManifestsFrom_uploadAll; [|done|done]. by rewrite firstn_all.
Qed.

Lemma uploadAll_app (h : HandlerFunc) (sent rest : list Descriptor) (s s' : State) :
  uploadAll h sent s = Some (Ok tt, s') →
  uploadAll h (sent ++ rest) s = uploadAll h rest s'.
Proof.
  revert s. induction sent as [|desc sent IH]; intros s; simpl.
  - by intros [= ->].
  - destruct (h desc s) as [[children [err|]] s1]; [done | apply IH].
Qed.

Lemma uploadAll_trace store pusher (descs : list Descriptor) :
  ∀ s, ∃ r s' k tail,
    uploadAll (runPushHandler store pusher) descs s = Some (r, s')
    ∧ trace s' = trace s ++ map (λ d, EvUpload d None) (take k descs) ++ tail
    ∧ ((r = Ok tt ∧ k = length descs ∧ tail = [])
       ∨ (∃ d err, descs !! k = Some d ∧ r = Fail err ∧ tail = [EvUpload d (Some err)])).
Proof.
  induction descs as [|desc rest IH]; intros s; simpl.
  - exists (Ok tt), s, 0, []. split; [done|]. split; [by rewrite app_nil_r | by left].
  - unfold runPushHandler at 1.
    destruct (remotes_push store pusher desc (world s)) as [[children [err|]] w]; simpl.
    + exists (Fail err), (logged (EvUpload desc (Some err)) w s), 0, [EvUpload desc (Some err)].
      split; [done|]. split; [done|]. right. by exists desc, err.
    + destruct (IH (logged (EvUpload desc None) w s)) as (r & s' & k & tail & Hrun & Htrace & Hcase).
      exists r, s', (S k), tail. split; [done|]. split.
      * rewrite Htrace. simpl. by rewrite <- app_assoc.
      * destruct Hcase as [(-> & -> & ->)|(d & err & Hd & -> & ->)]; [by left|].
        right. by exists d, err.
Qed.

Lemma handlersFrom_filter_push (store : ContentStore) (pusher : Pusher)
    (before : list HandlerFunc) :
  Forall (appendsOnly notManifestUpload) before →
  ∀ children,
    appendsOnly notManifestUpload
      (handlersFrom (before ++ [runFilterHandler; runPushHandler store pusher]) children).
Proof.
  induction 1 as [|h before Hh _ IH]; intros children desc s; simpl.
  - unfold runFilterHandler. destruct (isManifestLike (MediaType desc)) eqn:Hlike; simpl.
    + exists []. simpl. split; [by rewrite app_nil_r | constructor].
    + unfold runPushHandler. destruct (remotes_push _ _ _ _) as [[ch [err|]] w]; simpl.
      * destruct (IsStopHandler err); by apply extends_logged.
      * by apply extends_logged.
  - specialize (Hh desc s).
    destruct (h desc s) as [[ch [err|]] s1]; simpl in *.
    + by destruct (IsStopHandler err).
    + eapply extends_trans; [exact Hh | apply IH].
Qed.

Lemma pushHandlers_notManifestUpload (ctx : RemoteContext) (store : ContentStore)
    (pusher : Pusher) :
  appendsOnly notManifestUpload (Handlers (pushHandlers ctx store pusher)).
Proof.
  unfold Handlers, pushHandlers.
  rewrite map_app.
  change (map Handle [ChildrenHandler store; filterHandler; PushHandler store pusher])
    with ([runChildrenHandler store] ++ [runFilterHandler; runPushHandler store pusher]).
  rewrite app_assoc. apply handlersFrom_filter_push.
  apply Forall_app. split.
  - apply Forall_fmap, Forall_fmap, Forall_forall. intros h _ desc s. simpl.
    unfold runBase. destruct (h desc (world s)). apply extends_setWorld.
  - constructor; [|constructor]. intros desc s.
    unfold runChildrenHandler. destruct (images_Children _ _ _). by apply extends_logged.
Qed.

(** C1: in a push whose traversal succeeds, the calls of the upload
    handler that follow the traversal are made on the entries of the
    manifest stack in the reverse of the order in which they were
    appended: the p-th call uploads the p-th entry counted from the top of
    the stack, and when Push returns without error every entry has been
    uploaded.  Hence, for a manifest M appended after a manifest A, when
    the upload of A is started the upload of M is already in the trace, and
    it returned without error.  The traversal itself uploads no
    manifest-like descriptor.  What Push returns, and the state it leaves,
    are those of the upload handler applied to the reversed stack, entry
    after entry up to the first error: Push fails after a successful
    traversal only with the error of an upload it made, which is then the
    last call, after the uploads of all the entries above that one. *)
Theorem push_uploads_manifests_in_reverse (c : Client) (fuel : nat) (ref : string)
    (desc : Descriptor) (opts : list RemoteOpts) (s0 s1 s3 : State)
    (ctx : RemoteContext) (pusher : Pusher) (w2 : World) :
  applyOpts c opts defaultRemoteContext s0 = Some (Ok ctx, s1) →
  Resolver_Pusher (CtxResolver ctx) ref (world s1) = (Ok pusher, w2) →
  Dispatch fuel (Handlers (pushHandlers ctx (Client_ContentStore c) pusher)) [desc]
    (mkState w2 [] (trace s1 ++ [EvPusher ref])) = Some (Ok tt, s3) →
  let stack := manifestStack s3 in
  ∃ r s4 ups,
    Push c fuel ref desc opts s0 = Some (r, s4)
    ∧ trace s4 = trace s3 ++ ups
    ∧ (∀ p ev, ups !! p = Some ev →
         ∃ d o, reverse stack !! p = Some d ∧ ev = EvUpload d o)
    ∧ (r = Ok tt → ups = map (λ d, EvUpload d None) (reverse stack))
    ∧ (∀ (i j : nat) A M, (i < j)%nat → stack !! i = Some A → stack !! j = Some M →
         is_Some (ups !! (length stack - S i)%nat) →
         ups !! (length stack - S j)%nat = Some (EvUpload M None)
         ∧ (length stack - S j < length stack - S i)%nat)
    ∧ extends notManifestUpload (mkState w2 [] (trace s1 ++ [EvPusher ref])) s3
    ∧ uploadAll (Handle (PushHandler (Client_ContentStore c) pusher)) (reverse stack) s3
      = Some (r, s4)
    ∧ (∀ err, r = Fail err →
         ∃ k d, reverse stack !! k = Some d
                ∧ ups = map (λ d, EvUpload d None) (take k (reverse stack))
                        ++ [EvUpload d (Some err)]).
Proof.
  intros Hopts Hpusher Hwalk stack.
  assert (Hquiet : extends notManifestUpload (mkState w2 [] (trace s1 ++ [EvPusher ref])) s3).
  { eapply Dispatch_extends; [apply pushHandlers_notManifestUpload | exact Hwalk]. }
  rewrite (Push_after_pusher _ _ _ _ _ _ _ _ _ _ Hopts Hpusher).
  rewrite (bind_Ok _ _ _ _ _ Hwalk).
  rewrite pushManifests_uploadAll by apply runPushHandler_stack. fold stack.
  destruct (uploadAll_trace (Client_ContentStore c) pusher (reverse stack) s3)
    as (r & s4 & k & tail & Hrun & Htrace & Hcase).
  exists r, s4, (map (λ d, EvUpload d None) (take k (reverse stack)) ++ tail).
  split; [exact Hrun|]. split; [exact Htrace|].
  assert (Hk : (k ≤ length stack)%nat ∧ (length tail ≤ 1)%nat).
  { destruct Hcase as [(_ & -> & ->)|(d & err & Hd & _ & ->)].
    - rewrite length_reverse. simpl. lia.
    - apply lookup_lt_Some in Hd. rewrite length_reverse in Hd. simpl. lia. }
  assert (Hlen : length (map (λ d, EvUpload d None) (take k (reverse stack))) = k).
  { rewrite length_map, length_take, length_reverse. lia. }
  split; [|split; [|split; [|split; [exact Hquiet|split; [exact Hrun|]]]]].
  - intros p ev Hp. destruct (decide (p < k)%nat) as [Hlt|Hge].
    + rewrite lookup_app_l in Hp by lia.
      rewrite list_lookup_fmap, lookup_take_lt in Hp by done.
      destruct (reverse stack !! p) as [d|]; [|done].
      injection Hp as <-. by exists d, None.
    + rewrite lookup_app_r in Hp by lia. rewrite Hlen in Hp.
      destruct Hcase as [(_ & _ & ->)|(d & err & Hd & _ & ->)]; [done|].
      destruct (p - k) as [|n] eqn:Hpk; [|done].
      injection Hp as <-. replace p with k by lia. by exists d, (Some err).
  - intros ->. destruct Hcase as [(_ & -> & ->)|(d & err & _ & [=] & _)].
    by rewrite app_nil_r, firstn_all.
  - intros i j A M Hij HA HM [ev Hev].
    apply lookup_lt_Some in HM as Hj. split; [|lia].
    apply lookup_lt_Some in Hev. rewrite length_app, Hlen in Hev.
    rewrite lookup_app_l by lia.
    rewrite list_lookup_fmap, lookup_take_lt by lia.
    rewrite reverse_lookup by lia.
    replace (length stack - S (length stack - S j)) with j by lia.
    by rewrite HM.
  - intros err ->. destruct Hcase as [([=] & _ & _)|(d & err' & Hd & [= <-] & ->)].
    by exists k, d.
Qed.

(** C7: when the traversal of a push returns a hard error, Push returns
    that error in the state the traversal left, with no upload after it;
    when the traversal succeeds and, in the pass over the reversed manifest
    stack, the upload handler returns an error on an entry after having
    succeeded on the entries before it, Push returns that error in the
    state that call left: the entries after it are not uploaded.  The
    result of Push is that one error. *)
Theorem push_error_aborts (c : Client) (fuel : nat) (ref : string)
    (desc : Descriptor) (opts : list RemoteOpts) (s0 s1 : State)
    (ctx : RemoteContext) (pusher : Pusher) (w2 : World) :
  applyOpts c opts defaultRemoteContext s0 = Some (Ok ctx, s1) →
  Resolver_Pusher (CtxResolver ctx) ref (world s1) = (Ok pusher, w2) →
  let cs := Client_ContentStore c in
  let pushHandler := Handle (PushHandler cs pusher) in
  let walk := Dispatch fuel (Handlers (pushHandlers ctx cs pusher)) [desc]
                (mkState w2 [] (trace s1 ++ [EvPusher ref])) in
  (∀ err s3, walk = Some (Fail err, s3) →
     Push c fuel ref desc opts s0 = Some (Fail err, s3))
  ∧ (∀ s3 sent d remaining s4 children err s5,
       walk = Some (Ok tt, s3) →
       reverse (manifestStack s3) = sent ++ d :: remaining →
       uploadAll pushHandler sent s3 = Some (Ok tt, s4) →
       pushHandler d s4 = ((children, Some err), s5) →
       Push c fuel ref desc opts s0 = Some (Fail err, s5)
       ∧ trace s5 = trace s4 ++ [EvUpload d (Some err)]).
Proof.
  intros Hopts Hpusher cs pushHandler walk.
  rewrite (Push_after_pusher _ _ _ _ _ _ _ _ _ _ Hopts Hpusher). fold cs walk.
  split.
  - intros err s3 Hwalk. by apply bind_Fail.
  - intros s3 sent d remaining s4 children err s5 Hwalk Hstack Hsent Hd.
    rewrite (bind_Ok _ _ _ _ _ Hwalk).
    rewrite pushManifests_uploadAll by apply runPushHandler_stack.
    rewrite Hstack, (uploadAll_app _ _ _ _ _ Hsent). simpl.
    fold pushHandler. rewrite Hd. split; [done|].
    unfold pushHandler in Hd. simpl in Hd. unfold runPushHandler in Hd.
    destruct (remotes_push _ _ _ _) as [[ch e] w]. simpl in Hd.
    by injection Hd as _ -> <-.
Qed.

End PushProperties.

(** *** Import and Export *)

Section FormatProperties.
Context `{Collab : Collaborators}.

Lemma applyImportOpts_app opts more iopts iopts' :
  applyImportOpts opts iopts = (iopts', None) →
  applyImportOpts (opts ++ more) iopts = applyImportOpts more iopts'.
Proof.
  revert iopts. induction opts as [|o opts IH]; intros iopts; simpl.
  - by intros [= ->].
  - destruct (o iopts) as [[err|] iopts1]; [done | apply IH].
Qed.

Lemma applyExportOpts_app opts more eopts eopts' :
  applyExportOpts opts eopts = (eopts', None) →
  applyExportOpts (opts ++ more) eopts = applyExportOpts more eopts'.
Proof.
  revert eopts. induction opts as [|o opts IH]; intros eopts; simpl.
  - by intros [= ->].
  - destruct (o eopts) as [[err|] eopts1]; [done | apply IH].
Qed.

(** C9: an Import whose resolved options carry a format other than OCI
    returns the unsupported-format error and touches nothing; an Export
    whose format, after the default has been applied, is not OCI returns
    that error and no reader.  A call whose options leave the format empty
    behaves as the same call with the OCI format option added: the OCI
    importer runs, and Export returns the reader of an OCI export. *)
Theorem unsupported_format_is_refused (c : Client) (ref : string) (reader : Reader)
    (desc : Descriptor) :
  (∀ opts iopts s,
     resolveImportOpt ref opts = (iopts, None) →
     imp_format iopts ≠ ociImageFormat →
     Import c ref reader opts s = Some (Fail (errUnsupportedFormat (imp_format iopts)), s))
  ∧ (∀ opts eopts,
     applyExportOpts opts (mkExportOpts EmptyString) = (eopts, None) →
     exp_format eopts ≠ EmptyString →
     exp_format eopts ≠ ociImageFormat →
     Export c desc opts = (None, Some (errUnsupportedFormat (exp_format eopts))))
  ∧ (∀ opts iopts,
     applyImportOpts opts (mkImportOpts EmptyString EmptyString) = (iopts, None) →
     imp_format iopts = EmptyString →
     Import c ref reader opts = Import c ref reader (opts ++ [WithOCIImportFormat])
     ∧ ∀ iopts', resolveImportOpt ref opts = (iopts', None) →
         imp_format iopts' = ociImageFormat
         ∧ Import c ref reader opts
           = call (EvImportOCI ref) (importFromOCITar c ref reader iopts'))
  ∧ (∀ opts eopts,
     applyExportOpts opts (mkExportOpts EmptyString) = (eopts, None) →
     exp_format eopts = EmptyString →
     Export c desc opts = Export c desc (opts ++ [WithOCIExportFormat])
     ∧ Export c desc opts = (Some (mkPipeReader desc (mkExportOpts ociImageFormat)), None)).
Proof.
  split; [|split; [|split]].
  - intros opts iopts s Hres Hfmt. unfold Import. rewrite Hres.
    apply String.eqb_neq in Hfmt. by rewrite Hfmt.
  - intros opts eopts Hopts Hset Hfmt. unfold Export. rewrite Hopts.
    apply String.eqb_neq in Hset, Hfmt. by rewrite Hset, Hfmt.
  - intros opts iopts Hopts Hempty. split.
    + unfold Import, resolveImportOpt.
      rewrite (applyImportOpts_app _ _ _ _ Hopts), Hopts. simpl.
      unfold WithOCIImportFormat. by rewrite Hempty.
    + intros iopts'. unfold Import, resolveImportOpt. rewrite Hopts, Hempty. simpl.
      destruct (String.eqb (imp_refObject iopts) EmptyString).
      * destruct (reference_Parse ref) as [object|err]; [|done].
        by intros [= <-].
      * by intros [= <-].
  - intros opts eopts Hopts Hempty. unfold Export.
    rewrite (applyExportOpts_app _ _ _ _ Hopts), Hopts. simpl.
    unfold WithOCIExportFormat. by rewrite Hempty.
Qed.

End FormatProperties.

(** ** The theorems at work on the demo world *)

(** The push scenario of the spec's testable properties: a manifest with
    two blobs below it and no sub-manifest; the blobs are uploaded during
    the traversal, the manifest last. *)
Example push_of_a_manifest_uploads_it_last :
  @Push Demo.env tt 5 Demo.latest Demo.manifest [] Demo.start
  = Some (Ok tt,
          @mkState Demo.env Demo.empty [Demo.manifest]
            [EvPusher Demo.latest; EvChildren Demo.manifest;
             EvChildren Demo.config; EvUpload Demo.config None;
             EvChildren Demo.layer; EvUpload Demo.layer None;
             EvUpload Demo.manifest None]).
Proof. reflexivity. Qed.

(** The filter handler on an image index and on a layer. *)
Lemma filterHandler_collects_manifests_witness :
  @Handle Demo.env filterHandler Demo.index Demo.start
  = (([], Some StopHandler), @mkState Demo.env ([], ∅) [Demo.index] [])
  ∧ @Handle Demo.env filterHandler Demo.layer Demo.start = (([], None), Demo.start).
Proof.
  split.
  - apply (proj1 (filterHandler_collects_manifests (Collab := Demo.env) Demo.index Demo.start)).
    refine (bool_decide_unpack _ _). vm_compute. exact I.
  - apply (proj2 (filterHandler_collects_manifests (Collab := Demo.env) Demo.layer Demo.start)).
    refine (bool_decide_unpack _ _). vm_compute. exact I.
Defined.

(** A pull and a push whose second option fails. *)
Lemma failing_option_stops_the_call_witness :
  let opts := [WithPullUnpack; Demo.failingOpt; WithSchema1Conversion] in
  @Pull Demo.env tt 5 "example.com/app:latest" opts Demo.start
  = Some (Fail (ErrorString "bad option"), Demo.start)
  ∧ @Push Demo.env tt 5 "example.com/app:latest" Demo.index opts Demo.start
    = Some (Fail (ErrorString "bad option"), Demo.start)
  ∧ trace Demo.start = [].
Proof.
  exact (failing_option_stops_the_call (Collab := Demo.env) tt 5 "example.com/app:latest"
           Demo.index [WithPullUnpack] [WithSchema1Conversion] Demo.failingOpt
           _ _ Demo.start Demo.start (ErrorString "bad option") _ eq_refl eq_refl).
Defined.

(** A pull of a reference that does not resolve, and a pull that meets a
    corrupt layer during the traversal. *)
Lemma failed_pull_leaves_registry_alone_witness :
  (∃ s', @Pull Demo.env tt 5 "example.com/app:missing" [] Demo.start
         = Some (Fail (ErrorString "example.com/app:missing: not found"), s')
         ∧ extends (λ ev, isRegistryOp ev = false) Demo.start s')
  ∧ (∃ s', @Pull Demo.env tt 5 "example.com/app:broken" [] Demo.start
           = Some (Fail (ErrorString "sha256:corrupt: digest mismatch"), s')
           ∧ extends (λ ev, isRegistryOp ev = false) Demo.start s').
Proof.
  split.
  - eexists.
    apply (proj1 (failed_pull_leaves_registry_alone (Collab := Demo.env) tt 5
                    "example.com/app:missing" [] Demo.start Demo.start _ eq_refl)).
    reflexivity.
  - eexists.
    eapply (proj2 (failed_pull_leaves_registry_alone (Collab := Demo.env) tt 5
                     "example.com/app:broken" [] Demo.start Demo.start _ eq_refl)).
    + reflexivity.
    + reflexivity.
    + reflexivity.
Defined.

(** A pull of the legacy manifest without conversion, past a base handler
    that lets everything through. *)
Lemma schema1_without_conversion_is_refused_witness :
  let ref := "example.com/app:legacy" in
  @Pull Demo.env tt 5 ref [WithImageHandler Demo.loggingHandler] Demo.start
  = Some (Fail (ErrorString "application/vnd.docker.distribution.manifest.v1+prettyjws not supported"),
          @mkState Demo.env ([], ∅) [] [EvResolve ref; EvFetcher ref])
  ∧ extends (λ ev, isStoreWrite ev = false) Demo.start
      (@mkState Demo.env ([], ∅) [] [EvResolve ref; EvFetcher ref]).
Proof.
  exact (schema1_without_conversion_is_refused (Collab := Demo.env) tt 4
           "example.com/app:legacy" [WithImageHandler Demo.loggingHandler]
           Demo.start Demo.start _ "example.com/app:legacy" Demo.legacy tt
           ([], ∅) ([], ∅) ([], ∅) eq_refl eq_refl eq_refl eq_refl eq_refl eq_refl).
Defined.

(** C4 as stated does not hold: with a schema 1 root and conversion
    disabled, Pull returns the error of the resolver when no fetcher can
    be had, and the error of a base handler that fails on the root; neither
    is the not-supported error. *)
Lemma schema1_pull_fails_with_other_errors :
  let ref := "example.com/app:legacy" in
  let refused := errNotSupported MediaTypeDockerSchema1Manifest in
  MediaType Demo.legacy = MediaTypeDockerSchema1Manifest
  ∧ (∃ ctx s1,
       @applyOpts Demo.env tt [@WithResolver Demo.env false] defaultRemoteContext Demo.start
       = Some (Ok ctx, s1)
       ∧ ConvertSchema1 ctx = false
       ∧ (Resolver_Resolve (CtxResolver ctx) ref (world s1)).1 = Ok (ref, Demo.legacy))
  ∧ fst <$> @Pull Demo.env tt 5 ref [@WithResolver Demo.env false] Demo.start
    = Some (Fail (ErrorString "no fetcher"))
  ∧ ErrorString "no fetcher" ≠ refused
  ∧ (∃ ctx s1,
       @applyOpts Demo.env tt [WithImageHandler Demo.failingHandler] defaultRemoteContext
         Demo.start = Some (Ok ctx, s1)
       ∧ ConvertSchema1 ctx = false
       ∧ (Resolver_Resolve (CtxResolver ctx) ref (world s1)).1 = Ok (ref, Demo.legacy))
  ∧ fst <$> @Pull Demo.env tt 5 ref [WithImageHandler Demo.failingHandler] Demo.start
    = Some (Fail (ErrorString "handler refused"))
  ∧ ErrorString "handler refused" ≠ refused.
Proof.
  repeat split; try reflexivity; try discriminate.
  - eexists _, _. repeat split; reflexivity.
  - eexists _, _. repeat split; reflexivity.
Qed.

(** A pull of the legacy manifest with conversion. *)
Lemma schema1_conversion_replaces_fetch_chain_witness :
  let ref := "example.com/app:legacy" in
  @pullHandlers Demo.env
    (@mkRemoteContext Demo.env true false EmptyString [] true) tt tt Demo.legacy
  = (Some (tt : @Converter Demo.env), [@Schema1Handler Demo.env tt])
  ∧ fst <$> @Pull Demo.env tt 5 ref [WithSchema1Conversion] Demo.start
    = Some (Ok (mkImage ref Demo.converted)).
Proof.
  destruct (schema1_conversion_replaces_fetch_chain (Collab := Demo.env) tt 5
              "example.com/app:legacy" [WithSchema1Conversion] Demo.start Demo.start _
              "example.com/app:legacy" Demo.legacy tt ([], ∅)
              eq_refl eq_refl eq_refl eq_refl) as (Hchain & _ & Hrecord).
  split; [exact Hchain|].
  rewrite (Hrecord _ _ _ _ eq_refl eq_refl eq_refl). reflexivity.
Defined.

(** A pull against an image service that is out of order, a first pull of
    [latest], and a pull of [latest] over a stale record. *)
Lemma pull_upserts_image_record_witness :
  fst <$> @Pull Demo.base tt 5 Demo.latest [] (@mkState Demo.base [] [] [])
  = Some (Fail (ErrorString "metadata service unavailable"))
  ∧ (@Pull Demo.env tt 5 Demo.latest [] Demo.start
     = Some (Ok Demo.record,
             Demo.recorded ∅ [EvUpdate Demo.record; EvCreate Demo.record])
     ∧ (world (Demo.recorded ∅ [EvUpdate Demo.record; EvCreate Demo.record])).2 !! Demo.latest
       = Some Demo.record)
  ∧ (@Pull Demo.env tt 5 Demo.latest [] (@mkState Demo.env ([], Demo.stale) [] [])
     = Some (Ok Demo.record, Demo.recorded Demo.stale [EvUpdate Demo.record])
     ∧ (world (Demo.recorded Demo.stale [EvUpdate Demo.record])).2 !! Demo.latest
       = Some Demo.record).
Proof.
  split; [|split].
  - exact (f_equal (fmap fst)
             (proj1 (proj2 (proj1 (pull_upserts_image_record (Collab := Demo.base))
                tt 5 Demo.latest [] (@mkState Demo.base [] [] []) _ _ _ Demo.latest Demo.index
                eq_refl eq_refl)) _ _ eq_refl eq_refl)).
  - split; [|vm_compute; reflexivity].
    exact (eq_trans
             (proj1 (proj1 (proj2 (pull_upserts_image_record (Collab := Demo.base))
                tt 5 Demo.latest [] Demo.start Demo.start (Demo.fetched ∅) defaultRemoteContext
                Demo.latest Demo.index eq_refl eq_refl) eq_refl))
             eq_refl).
  - split; [|vm_compute; reflexivity].
    exact (eq_trans
             (proj1 (proj2 (proj2 (pull_upserts_image_record (Collab := Demo.base))
                tt 5 Demo.latest [] (@mkState Demo.env ([], Demo.stale) [] []) _
                (Demo.fetched Demo.stale) defaultRemoteContext
                Demo.latest Demo.index eq_refl eq_refl) (mkImage Demo.latest Demo.legacy) eq_refl))
             eq_refl).
Defined.

(** C3 as stated does not hold: the traversal of a schema 1 pull under
    conversion can succeed and the conversion that follows it fail; Pull
    then returns the error of the converter and calls neither Update nor
    Create. *)
Lemma pull_without_update_after_walk :
  let ref := "example.com/app:garbled" in
  let conv : @Converter Demo.env := tt in
  let walk :=
    @Dispatch Demo.env 5 (Handlers [Schema1Handler conv]) [Demo.garbled]
      (@mkState Demo.env Demo.empty [] [EvResolve ref; EvFetcher ref]) in
  let s4 := @mkState Demo.env (["sha256:garbled"], ∅) []
              [EvResolve ref; EvFetcher ref; EvSchema1Handle Demo.garbled] in
  walk = Some (Ok tt, s4)
  ∧ @Pull Demo.env tt 5 ref [WithSchema1Conversion] Demo.start
    = Some (Fail (ErrorString "sha256:garbled: unexpected end of JSON input"),
            @logged Demo.env EvSchema1Convert (["sha256:garbled"], ∅) s4)
  ∧ filter (λ ev, Is_true (isRegistryOp ev))
      (trace (@logged Demo.env EvSchema1Convert (["sha256:garbled"], ∅) s4)) = [].
Proof. repeat split; reflexivity. Qed.

(** Pulls that unpack into a snapshotter that is there, into one that is
    not, and a pull that does not unpack. *)
Lemma unpack_runs_only_on_request_witness :
  let s3 := Demo.recorded ∅ [EvUpdate Demo.record; EvCreate Demo.record] in
  @Pull Demo.env tt 5 Demo.latest [WithPullUnpack; WithPullSnapshotter "overlayfs"] Demo.start
  = Some (Ok Demo.record, logged (EvUnpack Demo.record "overlayfs") (world s3) s3)
  ∧ @Pull Demo.env tt 5 Demo.latest [WithPullUnpack; WithPullSnapshotter "zfs"] Demo.start
    = Some (Fail (ErrorString "snapshotter zfs not loaded"),
            logged (EvUnpack Demo.record "zfs") (world s3) s3)
  ∧ @Pull Demo.env tt 5 Demo.latest [] Demo.start = Some (Ok Demo.record, s3)
  ∧ extends (λ ev, isUnpack ev = false) Demo.start s3.
Proof.
  intros s3. split; [|split; [|split]].
  - exact (proj1 (proj1 (unpack_runs_only_on_request (Collab := Demo.env) tt 5 Demo.latest
                    [WithPullUnpack; WithPullSnapshotter "overlayfs"] Demo.start Demo.start
                    (@mkRemoteContext Demo.env true true "overlayfs" [] false) eq_refl)
                   Demo.latest Demo.index (Demo.fetched ∅) Demo.record s3 eq_refl eq_refl)
             eq_refl None (world s3) eq_refl).
  - exact (proj1 (proj1 (unpack_runs_only_on_request (Collab := Demo.env) tt 5 Demo.latest
                    [WithPullUnpack; WithPullSnapshotter "zfs"] Demo.start Demo.start
                    (@mkRemoteContext Demo.env true true "zfs" [] false) eq_refl)
                   Demo.latest Demo.index (Demo.fetched ∅) Demo.record s3 eq_refl eq_refl)
             eq_refl (Some (ErrorString "snapshotter zfs not loaded")) (world s3) eq_refl).
  - exact (proj2 (proj1 (unpack_runs_only_on_request (Collab := Demo.env) tt 5 Demo.latest
                    [] Demo.start Demo.start defaultRemoteContext eq_refl)
                   Demo.latest Demo.index (Demo.fetched ∅) Demo.record s3 eq_refl eq_refl)
             eq_refl).
  - exact (proj2 (unpack_runs_only_on_request (Collab := Demo.env) tt 5 Demo.latest
                    [] Demo.start Demo.start defaultRemoteContext eq_refl)
             eq_refl (Ok Demo.record) s3 eq_refl).
Defined.

(** A push of the index: its manifest stack is the index followed by the
    manifest. *)
Lemma push_uploads_manifests_in_reverse_witness :
  let stack := [Demo.index; Demo.manifest] in
  let s3 := Demo.walked Demo.latest in
  ∃ r s4 ups,
    @Push Demo.env tt 5 Demo.latest Demo.index [] Demo.start = Some (r, s4)
    ∧ trace s4 = trace s3 ++ ups
    ∧ (∀ p ev, ups !! p = Some ev →
         ∃ d o, reverse stack !! p = Some d ∧ ev = EvUpload d o)
    ∧ (r = Ok tt → ups = map (λ d, EvUpload d None) (reverse stack))
    ∧ (∀ (i j : nat) A M, i < j → stack !! i = Some A → stack !! j = Some M →
         is_Some (ups !! (length stack - S i)) →
         ups !! (length stack - S j) = Some (EvUpload M None)
         ∧ length stack - S j < length stack - S i)
    ∧ extends notManifestUpload (@mkState Demo.env ([], ∅) [] [EvPusher Demo.latest]) s3
    ∧ uploadAll (@Handle Demo.env (@PushHandler Demo.env tt true)) (reverse stack) s3 = Some (r, s4)
    ∧ (∀ err, r = Fail err →
         ∃ k d, reverse stack !! k = Some d
                ∧ ups = map (λ d, EvUpload d None) (take k (reverse stack))
                        ++ [EvUpload d (Some err)]).
Proof.
  exact (push_uploads_manifests_in_reverse (Collab := Demo.env) tt 5 Demo.latest
           Demo.index [] Demo.start Demo.start (Demo.walked Demo.latest)
           defaultRemoteContext true ([], ∅) eq_refl eq_refl eq_refl).
Defined.

(** A push stopped by a base handler during the traversal, and a push to
    a registry that refuses the manifest in the final pass. *)
Lemma push_error_aborts_witness :
  let denied := ErrorString "sha256:manifest: denied" in
  @Push Demo.env tt 5 Demo.latest Demo.index [WithImageHandler Demo.failingHandler] Demo.start
  = Some (Fail (ErrorString "handler refused"),
          @mkState Demo.env Demo.empty [] [EvPusher Demo.latest])
  ∧ @Push Demo.env tt 5 Demo.strict Demo.index [] Demo.start
    = Some (Fail denied, @logged Demo.env (EvUpload Demo.manifest (Some denied)) Demo.empty
                           (Demo.walked Demo.strict))
  ∧ trace (@logged Demo.env (EvUpload Demo.manifest (Some denied)) Demo.empty
             (Demo.walked Demo.strict))
    = trace (Demo.walked Demo.strict) ++ [EvUpload Demo.manifest (Some denied)].
Proof.
  intros denied. split.
  - exact (proj1 (push_error_aborts (Collab := Demo.env) tt 5 Demo.latest Demo.index
                    [WithImageHandler Demo.failingHandler] Demo.start Demo.start
                    (@mkRemoteContext Demo.env true false EmptyString [Demo.failingHandler] false)
                    true ([], ∅) eq_refl eq_refl)
             (ErrorString "handler refused") _ eq_refl).
  - exact (proj2 (push_error_aborts (Collab := Demo.env) tt 5 Demo.strict Demo.index
                    [] Demo.start Demo.start defaultRemoteContext false ([], ∅) eq_refl eq_refl)
             (Demo.walked Demo.strict) [] Demo.manifest [Demo.index] (Demo.walked Demo.strict)
             [] denied _ eq_refl eq_refl eq_refl eq_refl).
Defined.

(** An import and an export that ask for the docker format, and calls
    that name no format. *)
Lemma unsupported_format_is_refused_witness :
  @Import Demo.env tt Demo.latest tt [Demo.WithDockerImportFormat] Demo.start
  = Some (Fail (ErrorString "unsupported format: docker"), Demo.start)
  ∧ @Export Demo.env tt Demo.index [Demo.WithDockerExportFormat]
    = (None, Some (ErrorString "unsupported format: docker"))
  ∧ @Import Demo.env tt Demo.latest tt [WithRefObject "v1"]
    = @Import Demo.env tt Demo.latest tt [WithRefObject "v1"; WithOCIImportFormat]
  ∧ @Export Demo.env tt Demo.index []
    = (Some (mkPipeReader Demo.index (mkExportOpts ociImageFormat)), None).
Proof.
  destruct (unsupported_format_is_refused (Collab := Demo.env) tt Demo.latest
              tt Demo.index) as (Himport & Hexport & Hdefault & Hdefault').
  split; [|split; [|split]].
  - apply (Himport [Demo.WithDockerImportFormat] (mkImportOpts "docker" "latest")
             Demo.start eq_refl). discriminate.
  - apply (Hexport [Demo.WithDockerExportFormat] (mkExportOpts "docker") eq_refl); discriminate.
  - exact (proj1 (Hdefault [WithRefObject "v1"] (mkImportOpts EmptyString "v1") eq_refl eq_refl)).
  - exact (proj2 (Hdefault' [] (mkExportOpts EmptyString) eq_refl eq_refl)).
Defined.

(** ** Further properties: what a pull and a push record *)

Section WalkProperties.
Context `{Collab : Collaborators}.

Lemma extends_both (P Q : Event → Prop) (s s' : State) :
  extends P s s' → extends Q s s' → extends (λ ev, P ev ∧ Q ev) s s'.
Proof.
  intros (t & Ht & HP) (t' & Ht' & HQ). rewrite Ht in Ht'.
  apply app_inv_head in Ht' as <-. exists t. split; [done|]. by apply Forall_and.
Qed.

Lemma extends_exact (P : Event → Prop) (s s' : State) (t : list Event) :
  extends P s s' → trace s' = trace s ++ t → Forall P t.
Proof. intros (t' & Ht' & HP) Ht. rewrite Ht' in Ht. by apply app_inv_head in Ht as <-. Qed.

(** *** Invariants of a traversal *)

Lemma handlersFrom_respects (R : State → State → Prop) (hs : list HandlerFunc) :
  (∀ s, R s s) → (∀ s1 s2 s3, R s1 s2 → R s2 s3 → R s1 s3) →
  Forall (respects R) hs → ∀ children, respects R (handlersFrom hs children).
Proof.
  intros Hrefl Htrans. induction 1 as [|h hs Hh _ IH]; intros children desc s; simpl.
  - apply Hrefl.
  - specialize (Hh desc s). destruct (h desc s) as [[ch [err|]] s1]; simpl in *.
    + by destruct (IsStopHandler err).
    + eapply Htrans; [exact Hh | apply IH].
Qed.

Lemma dispatchEach_respects (R : State → State → Prop) (recurse : list Descriptor → M unit)
    (handler : HandlerFunc) :
  (∀ s, R s s) → (∀ s1 s2 s3, R s1 s2 → R s2 s3 → R s1 s3) →
  respects R handler →
  (∀ descs s r s', recurse descs s = Some (r, s') → R s s') →
  ∀ descs s r s', dispatchEach recurse handler descs s = Some (r, s') → R s s'.
Proof.
  intros Hrefl Htrans Hh Hrec descs.
  induction descs as [|desc rest IH]; intros s r s'; simpl.
  - intros [= _ <-]. apply Hrefl.
  - specialize (Hh desc s).
    destruct (handler desc s) as [[children [err|]] s1]; simpl in Hh.
    + by intros [= _ <-].
    + destruct children as [|child children].
      * intros Hrest. eapply Htrans; [exact Hh | by eapply IH].
      * destruct (recurse (child :: children) s1) as [[[[]|err] s2]|] eqn:Hsub; [| |done].
        -- intros Hrest. eapply Htrans; [exact Hh|].
           eapply Htrans; [by eapply Hrec | by eapply IH].
        -- intros [= _ <-]. eapply Htrans; [exact Hh | by eapply Hrec].
Qed.

Lemma Dispatch_respects (R : State → State → Prop) (handler : HandlerFunc) (fuel : nat) :
  (∀ s, R s s) → (∀ s1 s2 s3, R s1 s2 → R s2 s3 → R s1 s3) →
  respects R handler →
  ∀ descs s r s', Dispatch fuel handler descs s = Some (r, s') → R s s'.
Proof.
  intros Hrefl Htrans Hh. induction fuel as [|fuel IH]; simpl; [done|].
  by apply dispatchEach_respects.
Qed.

(** No handler puts anything but a manifest-like descriptor on the
    manifest stack. *)
Lemma Handle_stackOfManifests (h : Handler) :
  respects (λ s s', stackOfManifests s → stackOfManifests s') (Handle h).
Proof.
  intros desc s Hs. unfold stackOfManifests in *. destruct h; simpl.
  - unfold runBase. by destruct (h desc (world s)).
  - unfold runFetchHandler. destruct (String.eqb _ _); [done|].
    by destruct (remotes_fetch _ _ _ _).
  - unfold runChildrenHandler. by destruct (images_Children _ _ _).
  - unfold runSchema1Handler. by destruct (Converter_Handle _ _ _).
  - unfold runFilterHandler. destruct (isManifestLike _) eqn:E; simpl; [|done].
    apply Forall_app. split; [done|]. by constructor.
  - unfold runPushHandler. by destruct (remotes_push _ _ _ _).
Qed.

Lemma Dispatch_stackOfManifests (hs : list Handler) (fuel : nat) descs s r s' :
  Dispatch fuel (Handlers hs) descs s = Some (r, s') →
  stackOfManifests s → stackOfManifests s'.
Proof.
  apply (Dispatch_respects (λ s s', stackOfManifests s → stackOfManifests s')); [tauto|tauto|].
  apply handlersFrom_respects; [tauto|tauto|].
  apply Forall_fmap, Forall_forall. intros h _. apply Handle_stackOfManifests.
Qed.

Lemma Base_appendsOnly (P : Event → Prop) (bs : list BaseHandler) :
  Forall (appendsOnly P) (map Handle (map Base bs)).
Proof.
  apply Forall_fmap, Forall_fmap, Forall_forall. intros h _ desc s. simpl.
  unfold runBase. destruct (h desc (world s)). apply extends_setWorld.
Qed.

(** *** Pull *)

Lemma pullHandlers_fromWalk ctx store fetcher desc :
  appendsOnly fromWalk (Handlers (pullHandlers ctx store fetcher desc).2).
Proof.
  unfold pullHandlers, Handlers.
  destruct (_ && _); cbn [snd]; rewrite map_app;
    apply handlersFrom_appendsOnly, Forall_app; (split; [apply Base_appendsOnly|]);
    repeat constructor; intros d s; simpl.
  - unfold runSchema1Handler. destruct (Converter_Handle _ _ _). by apply extends_logged.
  - unfold runFetchHandler. destruct (String.eqb _ _); [apply extends_refl|].
    destruct (remotes_fetch _ _ _ _). by apply extends_logged.
  - unfold runChildrenHandler. destruct (images_Children _ _ _). by apply extends_logged.
Qed.

Lemma pullContent_fromWalk c fuel ref ctx s r s' :
  pullContent c fuel ref ctx s = Some (r, s') → extends fromWalk s s'.
Proof.
  unfold pullContent. apply bind_extends.
  { intros r1 s1. by apply call_extends. }
  intros [name desc] s1 _. apply bind_extends.
  { intros r2 s2. by apply call_extends. }
  intros fetcher s2 _.
  pose proof (pullHandlers_fromWalk ctx (Client_ContentStore c) fetcher desc) as Hchain.
  destruct (pullHandlers _ _ _ _) as [conv handlers]. cbn [snd] in Hchain.
  apply bind_extends.
  { intros r3 s3. by apply Dispatch_extends. }
  intros [] s3 _. apply bind_extends.
  { intros r4 s4. destruct conv as [conv|].
    - by apply call_extends.
    - intros [= _ <-]. apply extends_refl. }
  intros desc' s4 _ [= _ <-]. apply extends_refl.
Qed.

Lemma upsertImage_calls c imgrec s r s' :
  upsertImage c imgrec s = Some (r, s') →
  trace s' = trace s ++ [EvUpdate imgrec]
  ∨ (trace s' = trace s ++ [EvUpdate imgrec; EvCreate imgrec]).
Proof.
  unfold upsertImage. destruct (ImageStore_Update _ _ _) as [[updated|err] w].
  - intros [= _ <-]. by left.
  - destruct (negb (IsNotFound err)).
    + intros [= _ <-]. by left.
    + unfold call. cbn [world logged]. destruct (ImageStore_Create _ _ _) as [r1 w'].
      intros [= _ <-]. right. cbn [trace logged]. by rewrite <- app_assoc.
Qed.

(** An upsert returns a record only when the image service returned it. *)
Lemma upsertImage_recordedAs c imgrec s img s' :
  upsertImage c imgrec s = Some (Ok img, s') →
  ∃ record, trace s' = trace s ++ record ∧ recordedAs c imgrec img (world s) record.
Proof.
  unfold upsertImage, recordedAs.
  destruct (ImageStore_Update _ _ _) as [[updated|err] w] eqn:Hupdate.
  - intros [= <- <-]. exists [EvUpdate imgrec]. split; [done|]. left. by exists w.
  - destruct (IsNotFound err) eqn:Hnf; simpl; [|done].
    unfold call. cbn [world logged].
    destruct (ImageStore_Create _ _ _) as [r1 w'] eqn:Hcreate.
    intros [= -> <-]. exists [EvUpdate imgrec; EvCreate imgrec].
    split; [cbn [trace logged]; by rewrite <- app_assoc|].
    right. by exists err, w, w'.
Qed.

Lemma unpackImage_calls c ctx img s r s' :
  unpackImage c ctx img s = Some (r, s') →
  (trace s' = trace s ∧ r = Ok img)
  ∨ (trace s' = trace s ++ [EvUnpack img (Snapshotter ctx)]
     ∧ Unpack ctx = true ∧ ∀ img', r = Ok img' → img' = img).
Proof.
  unfold unpackImage. destruct (Unpack ctx).
  - unfold mbind, M_bind, callE. destruct (image_Unpack _ _ _ _) as [[err|] w].
    + intros [= <- <-]. right. by repeat split.
    + intros [= <- <-]. right. split; [done|]. split; [done|]. by intros img' [= <-].
  - intros [= <- <-]. by left.
Qed.

(** X1: the calls of a pull, whatever its options and its outcome, come in
    three blocks: first the resolution of the reference and the walk
    (resolve, fetcher, fetches, children, schema 1 handling and
    conversion), then the record (an update, or an update followed by a
    create of the same record), then at most one unpack.  The pull never
    asks for a pusher and never uploads.  It unpacks, and it returns an
    image, only after the image service has returned the record of the
    image: in a run that unpacks or returns an image, the options passed,
    lines 362-395 handed over a name and a target, and the update, or the
    create after an update that found no record, answered with a record;
    that record is the image unpacked, into the snapshotter of the
    context and only when the context asks for it, and it is the image
    returned. *)
Theorem pull_calls_come_in_three_blocks (c : Client) (fuel : nat) (ref : string)
    (opts : list RemoteOpts) (s0 s' : State) (r : res Image) :
  Pull c fuel ref opts s0 = Some (r, s') →
  ∃ walk record unpack,
    trace s' = trace s0 ++ walk ++ record ++ unpack
    ∧ Forall fromWalk walk
    ∧ (record = [] ∨ ∃ imgrec, record = [EvUpdate imgrec]
                              ∨ record = [EvUpdate imgrec; EvCreate imgrec])
    ∧ (unpack = [] ∨ ∃ img snapshotter, unpack = [EvUnpack img snapshotter] ∧ record ≠ [])
    ∧ (∀ img, r = Ok img → record ≠ [])
    ∧ (unpack ≠ [] ∨ (∃ img, r = Ok img) →
       ∃ ctx s1 name desc s2 img,
         applyOpts c opts defaultRemoteContext s0 = Some (Ok ctx, s1)
         ∧ pullContent c fuel ref ctx s1 = Some (Ok (name, desc), s2)
         ∧ trace s2 = trace s0 ++ walk
         ∧ recordedAs c (mkImage name desc) img (world s2) record
         ∧ (unpack = [] ∨ (unpack = [EvUnpack img (Snapshotter ctx)] ∧ Unpack ctx = true))
         ∧ (∀ img', r = Ok img' → img' = img)).
Proof.
  unfold Pull. intros Hrun.
  apply bind_inv in Hrun as [(ctx & s1 & Hopts & Hrun)|(err & Hopts & ->)].
  2:{ apply applyOpts_silent in Hopts as [E _]. exists [], [], [].
      rewrite E, !app_nil_r. repeat split; auto. by intros [?|[? ?]]. }
  pose proof (applyOpts_silent _ _ _ _ _ _ Hopts) as [E1 _].
  apply bind_inv in Hrun as [([name desc] & s2 & Hcontent & Hrun)|(err & Hcontent & ->)].
  2:{ apply pullContent_fromWalk in Hcontent as (walk & Hwalk & F). exists walk, [], [].
      rewrite Hwalk, E1, !app_nil_r. repeat split; auto. by intros [?|[? ?]]. }
  pose proof (pullContent_fromWalk _ _ _ _ _ _ _ Hcontent) as (walk & Hwalk & F).
  exists walk.
  apply bind_inv in Hrun as [(img & s3 & Hup & Hrun)|(err & Hup & ->)].
  2:{ apply upsertImage_calls in Hup.
      destruct Hup as [Hup|Hup];
        [exists [EvUpdate (mkImage name desc)], []
        |exists [EvUpdate (mkImage name desc); EvCreate (mkImage name desc)], []];
        rewrite Hup, Hwalk, E1, <- !app_assoc; (split; [done|]); (split; [done|]);
        (split; [right; exists (mkImage name desc); auto|]); (split; [by left|]);
        (split; [done|]); by intros [?|[? ?]]. }
  apply upsertImage_recordedAs in Hup as (record & Hrec & Hanswer).
  apply unpackImage_calls in Hrun.
  assert ((∃ imgrec, record = [EvUpdate imgrec]
                     ∨ record = [EvUpdate imgrec; EvCreate imgrec])
          ∧ record ≠ []) as [Hshape Hne].
  { destruct Hanswer as [(w' & _ & ->)|(err & w1 & w' & _ & _ & _ & ->)];
      (split; [eexists; eauto | done]). }
  assert (trace s2 = trace s0 ++ walk) as Hs2 by by rewrite Hwalk, E1.
  exists record. destruct Hrun as [[Hun ->]|(Hun & Hasked & Hsame)].
  - exists []. rewrite Hun, Hrec, Hs2, app_nil_r, <- app_assoc.
    split; [done|]. split; [done|]. split; [by right|]. split; [by left|].
    split; [done|]. intros _. exists ctx, s1, name, desc, s2, img.
    split; [done|]. split; [done|]. split; [done|]. split; [done|].
    split; [by left|]. by intros img' [= <-].
  - exists [EvUnpack img (Snapshotter ctx)]. rewrite Hun, Hrec, Hs2, <- !app_assoc.
    split; [done|]. split; [done|]. split; [by right|]. split; [right; eauto|].
    split; [done|]. intros _. exists ctx, s1, name, desc, s2, img.
    split; [done|]. split; [done|]. split; [done|]. split; [done|].
    split; [by right|]. done.
Qed.

Lemma pullContent_no_fetcher c fuel ref ctx s1 name desc w2 err w3 :
  Resolver_Resolve (CtxResolver ctx) ref (world s1) = (Ok (name, desc), w2) →
  Resolver_Fetcher (CtxResolver ctx) name w2 = (Fail err, w3) →
  pullContent c fuel ref ctx s1
  = Some (Fail err, logged (EvFetcher name) w3 (logged (EvResolve ref) w2 s1)).
Proof.
  intros Hres Hfet. unfold pullContent.
  unfold mbind at 1. unfold M_bind at 1. unfold call at 1. rewrite Hres.
  unfold mbind at 1. unfold M_bind at 1. unfold call at 1. cbn [world logged].
  by rewrite Hfet.
Qed.

(** X2: when the resolver hands out no fetcher for the name it resolved,
    Pull returns the resolver's error whatever depth the walk is allowed:
    no handler is built or run, nothing is fetched, and the two resolver
    calls are all that was made. *)
Theorem pull_without_fetcher_stops_before_the_walk (c : Client) (fuel : nat) (ref : string)
    (opts : list RemoteOpts) (s0 s1 : State) (ctx : RemoteContext)
    (name : string) (desc : Descriptor) (w2 w3 : World) (err : error) :
  applyOpts c opts defaultRemoteContext s0 = Some (Ok ctx, s1) →
  Resolver_Resolve (CtxResolver ctx) ref (world s1) = (Ok (name, desc), w2) →
  Resolver_Fetcher (CtxResolver ctx) name w2 = (Fail err, w3) →
  Pull c fuel ref opts s0
  = Some (Fail err, mkState w3 (manifestStack s0) (trace s0 ++ [EvResolve ref; EvFetcher name])).
Proof.
  intros Hopts Hres Hfet. rewrite (Pull_after_opts _ _ _ _ _ _ _ Hopts).
  rewrite (bind_Fail _ _ _ _ _ (pullContent_no_fetcher c fuel _ _ _ _ _ _ _ _ Hres Hfet)).
  apply applyOpts_silent in Hopts as [Etrace Estack].
  unfold logged. simpl. by rewrite Etrace, Estack, <- app_assoc.
Qed.

(** X3: when a schema 1 root was walked by the converter and the
    conversion then fails, Pull returns the converter's error right after
    the conversion: the image is not recorded and nothing is unpacked. *)
Theorem pull_failed_conversion_records_nothing (c : Client) (fuel : nat) (ref : string)
    (opts : list RemoteOpts) (s0 s1 s4 : State) (ctx : RemoteContext)
    (name : string) (desc : Descriptor) (fetcher : Fetcher) (w2 w3 w5 : World) (err : error) :
  applyOpts c opts defaultRemoteContext s0 = Some (Ok ctx, s1) →
  Resolver_Resolve (CtxResolver ctx) ref (world s1) = (Ok (name, desc), w2) →
  MediaType desc = MediaTypeDockerSchema1Manifest →
  ConvertSchema1 ctx = true →
  Resolver_Fetcher (CtxResolver ctx) name w2 = (Ok fetcher, w3) →
  let store := Client_ContentStore c in
  let conv := schema1_NewConverter store fetcher in
  Dispatch fuel (Handlers (map Base (BaseHandlers ctx) ++ [Schema1Handler conv])) [desc]
    (logged (EvFetcher name) w3 (logged (EvResolve ref) w2 s1)) = Some (Ok tt, s4) →
  Converter_Convert conv (world s4) = (Fail err, w5) →
  Pull c fuel ref opts s0 = Some (Fail err, logged EvSchema1Convert w5 s4)
  ∧ extends (λ ev, isRegistryOp ev = false ∧ isUnpack ev = false) s0
      (logged EvSchema1Convert w5 s4).
Proof.
  intros Hopts Hres Hmt Hconv Hfet store conv Hwalk Hfail.
  assert (pullHandlers ctx store fetcher desc
          = (Some conv, map Base (BaseHandlers ctx) ++ [Schema1Handler conv])) as Hchain.
  { unfold pullHandlers. by rewrite Hmt, String.eqb_refl, Hconv. }
  assert (pullContent c fuel ref ctx s1 = Some (Fail err, logged EvSchema1Convert w5 s4))
    as Hcontent.
  { rewrite (pullContent_resolved _ _ _ _ _ _ _ _ _ _ Hres Hfet).
    fold store. rewrite Hchain. cbn [fst snd].
    rewrite (bind_Ok _ _ _ _ _ Hwalk).
    unfold mbind, M_bind, call. by rewrite Hfail. }
  split.
  - rewrite (Pull_after_opts _ _ _ _ _ _ _ Hopts). by apply bind_Fail.
  - apply applyOpts_silent in Hopts as [E _]. apply (extends_from _ _ s1); [done|].
    eapply extends_impl; [|by eapply pullContent_fromWalk]. by intros [].
Qed.

(** X4: a request to convert schema 1 changes nothing in a pull whose
    reference resolves to a root of another media type: the pull with the
    option [WithSchema1Conversion] added is the pull without it. *)
Theorem conversion_option_is_idle_on_other_roots (c : Client) (fuel : nat) (ref : string)
    (opts : list RemoteOpts) (s0 s1 : State) (ctx : RemoteContext)
    (name : string) (desc : Descriptor) (w2 : World) :
  applyOpts c opts defaultRemoteContext s0 = Some (Ok ctx, s1) →
  Resolver_Resolve (CtxResolver ctx) ref (world s1) = (Ok (name, desc), w2) →
  MediaType desc ≠ MediaTypeDockerSchema1Manifest →
  Pull c fuel ref (opts ++ [WithSchema1Conversion]) s0 = Pull c fuel ref opts s0.
Proof.
  intros Hopts Hres Hmt.
  pose (ctx' := mkRemoteContext (CtxResolver ctx) (Unpack ctx) (Snapshotter ctx)
                  (BaseHandlers ctx) true).
  assert (applyOpts c (opts ++ [WithSchema1Conversion]) defaultRemoteContext s0
          = Some (Ok ctx', s1)) as Hopts'.
  { rewrite (applyOpts_app _ _ _ _ _ _ _ Hopts). simpl. by rewrite setWorld_world. }
  rewrite (Pull_after_opts _ _ _ _ _ _ _ Hopts), (Pull_after_opts _ _ _ _ _ _ _ Hopts').
  assert (∀ store fetcher, pullHandlers ctx' store fetcher desc
                           = pullHandlers ctx store fetcher desc) as Hchain.
  { intros store fetcher. unfold pullHandlers.
    apply String.eqb_neq in Hmt. by rewrite Hmt. }
  assert (pullContent c fuel ref ctx' s1 = pullContent c fuel ref ctx s1) as Hcontent.
  { destruct (Resolver_Fetcher (CtxResolver ctx) name w2) as [[fetcher|err] w3] eqn:Hfet.
    - rewrite (pullContent_resolved c fuel ref ctx' s1 name desc w2 fetcher w3 Hres Hfet).
      rewrite (pullContent_resolved c fuel ref ctx s1 name desc w2 fetcher w3 Hres Hfet).
      by rewrite Hchain.
    - rewrite (pullContent_no_fetcher c fuel ref ctx' s1 name desc w2 err w3 Hres Hfet).
      by rewrite (pullContent_no_fetcher c fuel ref ctx s1 name desc w2 err w3 Hres Hfet). }
  unfold mbind at 1 4. unfold M_bind at 1 4. by rewrite Hcontent.
Qed.

End WalkProperties.

Section PushWalkProperties.
Context `{Collab : Collaborators}.

Lemma pushHandlers_fromPush (ctx : RemoteContext) (store : ContentStore) (pusher : Pusher) :
  appendsOnly fromPush (Handlers (pushHandlers ctx store pusher)).
Proof.
  unfold pushHandlers, Handlers. rewrite map_app.
  apply handlersFrom_appendsOnly, Forall_app. split; [apply Base_appendsOnly|].
  repeat constructor; intros d s; simpl.
  - unfold runChildrenHandler. destruct (images_Children _ _ _). by apply extends_logged.
  - unfold runFilterHandler. destruct (isManifestLike _); [|apply extends_refl].
    exists []. simpl. split; [by rewrite app_nil_r | constructor].
  - unfold runPushHandler. destruct (remotes_push _ _ _ _). by apply extends_logged.
Qed.

Lemma uploadAll_stack (h : HandlerFunc) :
  (∀ desc s, manifestStack (h desc s).2 = manifestStack s) →
  ∀ descs s r s', uploadAll h descs s = Some (r, s') → manifestStack s' = manifestStack s.
Proof.
  intros Hh descs. induction descs as [|desc rest IH]; intros s r s'; simpl.
  - by intros [= _ <-].
  - specialize (Hh desc s). destruct (h desc s) as [[children [err|]] s1]; simpl in Hh.
    + by intros [= _ <-].
    + intros Hrest. rewrite <- Hh. by eapply IH.
Qed.

(** X5: the calls of a push, whatever its options and its outcome, are the
    request for a pusher, children lookups and uploads, and they come in
    two blocks: during the walk no manifest-like descriptor is uploaded,
    and what follows the walk are uploads of manifest-like descriptors
    only.  So every blob is uploaded before every manifest, no image is
    recorded, nothing is fetched and nothing unpacked.  When the push
    succeeds, the second block is the manifest stack in reverse. *)
Theorem push_uploads_blobs_before_manifests (c : Client) (fuel : nat) (ref : string)
    (desc : Descriptor) (opts : list RemoteOpts) (s0 s' : State) (r : res unit) :
  Push c fuel ref desc opts s0 = Some (r, s') →
  ∃ walk manifests,
    trace s' = trace s0 ++ walk ++ manifests
    ∧ Forall (λ ev, fromPush ev ∧ notManifestUpload ev) walk
    ∧ Forall manifestUpload manifests
    ∧ (r = Ok tt →
       stackOfManifests s'
       ∧ manifests = map (λ d, EvUpload d None) (reverse (manifestStack s'))).
Proof.
  unfold Push. intros Hrun.
  apply bind_inv in Hrun as [(ctx & s1 & Hopts & Hrun)|(err & Hopts & ->)].
  2:{ apply applyOpts_silent in Hopts as [E _]. exists [], [].
      rewrite E, !app_nil_r. repeat split; auto; discriminate. }
  apply applyOpts_silent in Hopts as [E1 _].
  apply bind_inv in Hrun as [(pusher & s2 & Hpusher & Hrun)|(err & Hpusher & ->)].
  2:{ unfold call in Hpusher. destruct (Resolver_Pusher _ _ _) as [r2 w2].
      injection Hpusher as _ <-. exists [EvPusher ref], []. simpl.
      rewrite E1. repeat split; auto; try discriminate. by repeat constructor. }
  unfold call in Hpusher. destruct (Resolver_Pusher _ _ _) as [r2 w2].
  injection Hpusher as -> <-.
  apply bind_inv in Hrun as [([] & s3 & Hnew & Hrun)|(err & Hnew & _)]; [|discriminate Hnew].
  injection Hnew as <-.
  set (cs := Client_ContentStore c) in *.
  assert (∀ r s4,
            Dispatch fuel (Handlers (pushHandlers ctx cs pusher)) [desc]
              (mkState (world (logged (EvPusher ref) w2 s1)) []
                 (trace (logged (EvPusher ref) w2 s1))) = Some (r, s4) →
            (∃ walk, trace s4 = trace s0 ++ walk
                     ∧ Forall (λ ev, fromPush ev ∧ notManifestUpload ev) walk)
            ∧ stackOfManifests s4) as Hwalked.
  { intros r3 s4 Hwalk. split.
    - pose proof (extends_both _ _ _ _
        (Dispatch_extends _ _ _ (pushHandlers_fromPush ctx cs pusher) _ _ _ _ Hwalk)
        (Dispatch_extends _ _ _ (pushHandlers_notManifestUpload ctx cs pusher) _ _ _ _ Hwalk))
        as (walk & Hw & F).
      exists (EvPusher ref :: walk). simpl in Hw. rewrite Hw, E1, <- app_assoc.
      split; [done|]. by constructor.
    - apply (Dispatch_stackOfManifests _ _ _ _ _ _ Hwalk). constructor. }
  apply bind_inv in Hrun as [([] & s4 & Hwalk & Hrun)|(err & Hwalk & ->)].
  2:{ apply Hwalked in Hwalk as [(walk & Hw & F) _]. exists walk, [].
      rewrite app_nil_r. repeat split; auto; discriminate. }
  apply Hwalked in Hwalk as [(walk & Hw & F) Hstack]. exists walk.
  rewrite pushManifests_uploadAll in Hrun by (intros; apply runPushHandler_stack).
  pose proof (uploadAll_stack _ (runPushHandler_stack cs pusher) _ _ _ _ Hrun) as Hkeep.
  destruct (uploadAll_trace cs pusher (reverse (manifestStack s4)) s4)
    as (r' & s'' & k & tail & Hup & Htr & Hcase).
  simpl in Hrun. rewrite Hup in Hrun. injection Hrun as <- <-.
  exists (map (λ d, EvUpload d None) (take k (reverse (manifestStack s4))) ++ tail).
  assert (Forall (λ d, isManifestLike (MediaType d) = true) (reverse (manifestStack s4)))
    as Hrev by by apply Forall_reverse.
  split; [by rewrite Htr, Hw, <- app_assoc|]. split; [done|]. split.
  - apply Forall_app. split.
    + apply Forall_fmap. by apply Forall_take.
    + destruct Hcase as [(_ & _ & ->)|(d & err & Hd & _ & ->)]; [constructor|].
      repeat constructor. simpl. by apply (Forall_lookup_1 _ _ _ _ Hrev Hd).
  - intros ->. destruct Hcase as [(_ & -> & ->)|(d & err & _ & [=] & _)].
    unfold stackOfManifests. rewrite Hkeep. split; [done|].
    by rewrite firstn_all, app_nil_r.
Qed.

(** X6: when the resolver hands out no pusher for the reference, Push
    returns the resolver's error whatever depth the walk is allowed: the
    walk does not start, the content store is not read, nothing is
    uploaded. *)
Theorem push_without_pusher_stops_before_the_walk (c : Client) (fuel : nat) (ref : string)
    (desc : Descriptor) (opts : list RemoteOpts) (s0 s1 : State) (ctx : RemoteContext)
    (w2 : World) (err : error) :
  applyOpts c opts defaultRemoteContext s0 = Some (Ok ctx, s1) →
  Resolver_Pusher (CtxResolver ctx) ref (world s1) = (Fail err, w2) →
  Push c fuel ref desc opts s0
  = Some (Fail err, mkState w2 (manifestStack s0) (trace s0 ++ [EvPusher ref])).
Proof.
  intros Hopts Hpusher. unfold Push. rewrite (bind_Ok _ _ _ _ _ Hopts).
  apply applyOpts_silent in Hopts as [Etrace Estack].
  unfold mbind at 1. unfold M_bind at 1. unfold call at 1. rewrite Hpusher.
  unfold logged. by rewrite Etrace, Estack.
Qed.

(** *** The options of the package *)

Lemma applyOpts_package (c : Client) (l : list RemoteOption) (ctx : RemoteContext)
    (s : State) :
  applyOpts c (map remoteOpts l) ctx s
  = Some (Ok (mkRemoteContext
                (lastResolver l (CtxResolver ctx))
                (Unpack ctx || asksUnpack l)
                (lastPullSnapshotter l (Snapshotter ctx))
                (BaseHandlers ctx ++ imageHandlers l)
                (ConvertSchema1 ctx || asksConversion l)), s).
Proof.
  revert ctx. induction l as [|o l IH]; intros ctx.
  - destruct ctx. simpl. by rewrite app_nil_r, !orb_false_r.
  - destruct o; simpl; rewrite setWorld_world, IH; simpl;
      rewrite ?orb_true_r, <- ?app_assoc; done.
Qed.

(** X7: the five remote options of the package never fail and leave the
    outside world alone, so a pull or a push given only these always gets
    past its option loop.  The context it then works with holds the last
    resolver named (the Docker resolver when none is), the last
    snapshotter named (the empty name when none is), the handlers of the
    WithImageHandler options in the order of the options, and the unpack
    and conversion requests of any of them. *)
Theorem package_options_configure_the_context (c : Client) (l : list RemoteOption)
    (s : State) :
  applyOpts c (map remoteOpts l) defaultRemoteContext s
  = Some (Ok (mkRemoteContext
                (lastResolver l docker_NewResolver)
                (asksUnpack l)
                (lastPullSnapshotter l EmptyString)
                (imageHandlers l)
                (asksConversion l)), s).
Proof. exact (applyOpts_package c l defaultRemoteContext s). Qed.

Lemma lastResolver_readByPush (l : list RemoteOption) :
  ∀ default, lastResolver (List.filter readByPush l) default = lastResolver l default.
Proof. induction l as [|[] l IH]; intros default; simpl; auto. Qed.

Lemma imageHandlers_readByPush (l : list RemoteOption) :
  imageHandlers (List.filter readByPush l) = imageHandlers l.
Proof. induction l as [|[] l IH]; simpl; auto. by rewrite IH. Qed.

(** X8: Push reads the resolver and the image handlers of its options and
    nothing else: the unpack request, the snapshotter and the schema 1
    conversion request of a push are ignored, that is, a push is the push
    with these options taken out of the list. *)
Theorem push_ignores_the_pull_options (c : Client) (fuel : nat) (ref : string)
    (desc : Descriptor) (l : list RemoteOption) (s0 : State) :
  Push c fuel ref desc (map remoteOpts l) s0
  = Push c fuel ref desc (map remoteOpts (List.filter readByPush l)) s0.
Proof.
  unfold Push.
  rewrite (bind_Ok _ _ _ _ _ (applyOpts_package c l _ s0)).
  rewrite (bind_Ok _ _ _ _ _ (applyOpts_package c (List.filter readByPush l) _ s0)).
  unfold pushHandlers. cbn [CtxResolver BaseHandlers defaultRemoteContext].
  by rewrite lastResolver_readByPush, imageHandlers_readByPush.
Qed.

End PushWalkProperties.

Section PackageFormatProperties.
Context `{Collab : Collaborators}.

Lemma applyImportOpts_package (l : list ImportOption) :
  ∀ iopts,
    match formatOptions l with
    | 0 => applyImportOpts (map importOpt l) iopts
           = (mkImportOpts (imp_format iopts) (lastRefObject l (imp_refObject iopts)), None)
    | 1 => if String.eqb (imp_format iopts) EmptyString
           then applyImportOpts (map importOpt l) iopts
                = (mkImportOpts ociImageFormat (lastRefObject l (imp_refObject iopts)), None)
           else (applyImportOpts (map importOpt l) iopts).2
                = Some (ErrorString "format already set")
    | _ => (applyImportOpts (map importOpt l) iopts).2 = Some (ErrorString "format already set")
    end.
Proof.
  induction l as [|[|refObject] l IH]; intros iopts.
  - by destruct iopts.
  - cbn [formatOptions map importOpt applyImportOpts]. unfold WithOCIImportFormat.
    destruct (String.eqb (imp_format iopts) EmptyString) eqn:E; cbn [negb].
    + specialize (IH (mkImportOpts ociImageFormat (imp_refObject iopts))).
      cbn [lastRefObject]. destruct (formatOptions l) as [|[|n]]; exact IH.
    + by destruct (formatOptions l) as [|[|n]].
  - cbn [formatOptions map importOpt applyImportOpts lastRefObject]. unfold WithRefObject.
    specialize (IH (mkImportOpts (imp_format iopts) refObject)).
    destruct (formatOptions l) as [|[|n]]; exact IH.
Qed.

(** X9: what Import does when its options are options of the package.
    With the format option given twice or more it fails with "format
    already set" and the importer is not called.  Otherwise the format is
    OCI, so the unsupported-format error cannot occur; the importer gets
    the object of the last WithRefObject option when that is not empty,
    and the object of the parsed reference when it is, and an unparsable
    reference fails the import before the importer is called. *)
Theorem import_with_package_options (c : Client) (ref : string) (reader : Reader)
    (l : list ImportOption) :
  Import c ref reader (map importOpt l)
  = if 2 <=? formatOptions l
    then (λ s, Some (Fail (ErrorString "format already set"), s))
    else if String.eqb (lastRefObject l EmptyString) EmptyString
    then match reference_Parse ref with
         | Fail err => (λ s, Some (Fail err, s))
         | Ok object =>
             call (EvImportOCI ref)
               (importFromOCITar c ref reader (mkImportOpts ociImageFormat object))
         end
    else call (EvImportOCI ref)
           (importFromOCITar c ref reader
              (mkImportOpts ociImageFormat (lastRefObject l EmptyString))).
Proof.
  pose proof (applyImportOpts_package l (mkImportOpts EmptyString EmptyString)) as H.
  unfold Import, resolveImportOpt.
  destruct (formatOptions l) as [|[|n]]; cbn [imp_format imp_refObject] in H; simpl in H.
  - rewrite H. cbn [imp_format imp_refObject]. simpl.
    destruct (String.eqb (lastRefObject l EmptyString) EmptyString); [|done].
    by destruct (reference_Parse ref).
  - rewrite H. cbn [imp_format imp_refObject]. simpl.
    destruct (String.eqb (lastRefObject l EmptyString) EmptyString); [|done].
    by destruct (reference_Parse ref).
  - destruct (applyImportOpts _ _) as [iopts err]. simpl in H. by rewrite H.
Qed.

(** X10: whatever options it is given, Export hands back either a reader
    or an error, never both and never neither, and a reader it hands back
    is the export of the descriptor it was given in the OCI format.  The
    export option of the package can be given at most once: with no option
    or with one the export is the OCI export, with two or more it fails
    with "format already set". *)
Theorem export_returns_an_oci_reader_or_an_error (c : Client) (desc : Descriptor) :
  (∀ opts : list ExportOpt,
     (∃ eopts, Export c desc opts = (Some (mkPipeReader desc eopts), None)
               ∧ exp_format eopts = ociImageFormat)
     ∨ (∃ err, Export c desc opts = (None, Some err)))
  ∧ (∀ n : nat,
       Export c desc (replicate n WithOCIExportFormat)
       = if n <=? 1
         then (Some (mkPipeReader desc (mkExportOpts ociImageFormat)), None)
         else (None, Some (ErrorString "format already set"))).
Proof.
  split.
  - intros opts. unfold Export.
    destruct (applyExportOpts opts (mkExportOpts EmptyString)) as [eopts [err|]];
      [right; eauto|].
    destruct (String.eqb (exp_format eopts) EmptyString) eqn:Eempty.
    + left. by exists (mkExportOpts ociImageFormat).
    + destruct (String.eqb (exp_format eopts) ociImageFormat) eqn:Eoci.
      * left. exists eopts. split; [done|]. by apply String.eqb_eq.
      * right. eauto.
  - intros n. by destruct n as [|[|n]].
Qed.

End PackageFormatProperties.

(** ** Further properties: the connection and the containers *)

Section DaemonProperties.
Context `{D : Daemon}.

(** *** New *)

Lemma applyClientOpts_app (pre post : list ClientOpt) (copts copts' : clientOpts) :
  applyClientOpts pre copts = (copts', None) →
  applyClientOpts (pre ++ post) copts = applyClientOpts post copts'.
Proof.
  revert copts. induction pre as [|o pre IH]; intros copts; simpl.
  - by intros [= <-].
  - destruct (o copts) as [[err|] copts1]; [done|]. apply IH.
Qed.

Lemma applyClientOpts_package (l : list ClientOption) :
  ∀ copts,
    applyClientOpts (map clientOpt l) copts
    = (mkClientOpts (lastNamespace l (co_defaultns copts))
         (lastDialOpts l (co_dialOptions copts)), None).
Proof.
  induction l as [|[ns|opts] l IH]; intros copts; simpl.
  - by destruct copts.
  - by rewrite IH.
  - by rewrite IH.
Qed.

(** X11: New with options of the package always gets to dial, once, the
    target [dialAddress address].  It dials with the caller's dial options
    when the last WithDialOpts option gave a non-empty list, and these
    then replace all five defaults (block, insecure, the 100 second
    timeout, fail on non-temporary errors, the package's dialer);
    the two namespace interceptors are appended in both cases when the
    last WithDefaultNamespace option named a non-empty namespace.  A dial
    error comes back wrapped with the address as the caller wrote it; the
    client of a successful dial holds the connection and the runtime name,
    and its default namespace field is empty whatever the options said. *)
Theorem new_dials_with_the_configured_options (address : string) (l : list ClientOption)
    (s : Session) :
  let ns := lastNamespace l EmptyString in
  let gopts :=
    match lastDialOpts l [] with
    | [] => [WithBlock; WithInsecure; WithTimeout 100; FailOnNonTempDialError true; WithDialer]
    | custom => custom
    end
    ++ (if String.eqb ns EmptyString then []
        else [WithUnaryInterceptor ns; WithStreamInterceptor ns]) in
  let s' h := mkSession h (calls s ++ [CallDial (dialAddress address) gopts]) in
  New address (map clientOpt l) s
  = match grpc_Dial (dialAddress address) gopts (host s) with
    | (Ok conn, h) =>
        ((Some (containerd.mkClient conn EmptyString
                  (plugin_RuntimePlugin +:+ "." +:+ runtime_GOOS)), None), s' h)
    | (Fail err, h) => ((None, Some (Wrapf err "failed to dial %q" address)), s' h)
    end.
Proof.
  intros ns gopts s'. unfold New. rewrite applyClientOpts_package.
  unfold dialOptionsOf. cbn [co_defaultns co_dialOptions]. fold ns.
  assert ((if 0 <? length (lastDialOpts l [])
           then lastDialOpts l []
           else [WithBlock; WithInsecure; WithTimeout 100; FailOnNonTempDialError true;
                 WithDialer])
          = match lastDialOpts l [] with
            | [] => [WithBlock; WithInsecure; WithTimeout 100; FailOnNonTempDialError true;
                     WithDialer]
            | custom => custom
            end) as -> by by destruct (lastDialOpts l []).
  assert ((if negb (String.eqb ns EmptyString)
           then match lastDialOpts l [] with
                | [] => [WithBlock; WithInsecure; WithTimeout 100;
                         FailOnNonTempDialError true; WithDialer]
                | custom => custom
                end ++ [WithUnaryInterceptor ns; WithStreamInterceptor ns]
           else match lastDialOpts l [] with
                | [] => [WithBlock; WithInsecure; WithTimeout 100;
                         FailOnNonTempDialError true; WithDialer]
                | custom => custom
                end) = gopts) as ->.
  { unfold gopts. destruct (String.eqb ns EmptyString); simpl; [by rewrite app_nil_r|done]. }
  unfold invoke, s'. by destruct (grpc_Dial _ _ _) as [[conn|err] h].
Qed.

(** X12: an option of New that returns an error ends the call with that
    error, unwrapped: the options after it are not run and nothing is
    dialled. *)
Theorem failing_client_option_prevents_the_dial (address : string)
    (pre post : list ClientOpt) (o : ClientOpt) (copts copts' : clientOpts)
    (err : error) (s : Session) :
  applyClientOpts pre (mkClientOpts EmptyString []) = (copts, None) →
  o copts = (Some err, copts') →
  New address (pre ++ o :: post) s = ((None, Some (AsIs err)), s).
Proof.
  intros Hpre Ho. unfold New. rewrite (applyClientOpts_app _ _ _ _ Hpre). simpl.
  by rewrite Ho.
Qed.

(** *** NewContainer *)

Lemma applyContainerOpts_app (c : containerd.Client) (pre post : list NewContainerOpts)
    (container container' : containers.Container) (s s' : Session) :
  applyContainerOpts c pre container s = ((None, container'), s') →
  applyContainerOpts c (pre ++ post) container s = applyContainerOpts c post container' s'.
Proof.
  revert container s. induction pre as [|o pre IH]; intros container s; simpl.
  - by intros [= <- <-].
  - destruct (o c container s) as [[[err|] container1] s1]; [done|]. apply IH.
Qed.

(** X13: a container option that returns an error ends NewContainer with
    that error: the options after it are not run, the container service
    is not asked to create anything, and the session is the one the
    failing option left. *)
Theorem failing_container_option_prevents_creation (c : containerd.Client) (id : string)
    (pre post : list NewContainerOpts) (o : NewContainerOpts)
    (container container' : containers.Container) (s0 s1 s2 : Session) (err : error) :
  applyContainerOpts c pre (blank c id) s0 = ((None, container), s1) →
  o c container s1 = ((Some err, container'), s2) →
  NewContainer c id (pre ++ o :: post) s0 = (Fail err, s2).
Proof.
  intros Hpre Ho. unfold NewContainer. fold (blank c id).
  rewrite (applyContainerOpts_app _ _ _ _ _ _ _ Hpre). simpl. by rewrite Ho.
Qed.

Lemma described_app (l1 l2 : list ContainerOption) :
  ∀ container, described (l1 ++ l2) container = described l2 (described l1 container).
Proof. induction l1 as [|o l1 IH]; intros container; simpl; [done|apply IH]. Qed.

Lemma described_ID (l : list ContainerOption) :
  ∀ container, containers.ID (described l container) = containers.ID container.
Proof. induction l as [|o l IH]; intros container; simpl; [done|]. by rewrite IH. Qed.

Ltac option_failed made :=
  intros [= <- <-]; exists made; simpl;
  split; [by rewrite <- ?app_assoc|]; split; [by repeat constructor|discriminate].

Ltac option_passed IH made :=
  let Hrun := fresh "Hrun" in
  let after := fresh "after" in
  let Hafter := fresh "Hafter" in
  let F := fresh "F" in
  let Hdesc := fresh "Hdesc" in
  intros Hrun; apply IH in Hrun as (after & Hafter & F & Hdesc);
  exists (made ++ after);
  split; [rewrite Hafter; simpl; by rewrite <- ?app_assoc|];
  split; [apply Forall_app; split; [by repeat constructor|done]|done].

Lemma applyContainerOpts_package (c : containerd.Client) (l : list ContainerOption) :
  ∀ container s r s',
    applyContainerOpts c (map containerOpt l) container s = (r, s') →
    ∃ before,
      calls s' = calls s ++ before
      ∧ Forall (λ ev, isOptionCall ev = true) before
      ∧ (r.1 = None → r.2 = described l container).
Proof.
  induction l as [|o l IH]; intros container s r s'.
  - intros [= <- <-]. exists []. by rewrite app_nil_r.
  - destruct o; cbn [map containerOpt applyContainerOpts described];
      unfold WithContainerLabels, WithSnapshot, WithNewSnapshot, WithNewSnapshotView,
             WithRuntime, WithSnapshotter, WithImage, invoke.
    + option_passed IH (@nil Call).
    + destruct (Snapshotter_Mounts _ _ _ _) as [[err|] h].
      * option_failed [CallMounts (containers.Snapshotter container) id].
      * option_passed IH [CallMounts (containers.Snapshotter container) id].
    + destruct (Image_RootFS _ _ _) as [[diffIDs|err] h1].
      * cbn [host calls]. destruct (Snapshotter_Prepare _ _ _ _ _) as [[err|] h2].
        -- option_failed [CallRootFS i; CallPrepare (containers.Snapshotter container) id
                                          (identity_ChainID diffIDs)].
        -- option_passed IH [CallRootFS i; CallPrepare (containers.Snapshotter container) id
                                             (identity_ChainID diffIDs)].
      * option_failed [CallRootFS i].
    + destruct (Image_RootFS _ _ _) as [[diffIDs|err] h1].
      * cbn [host calls]. destruct (Snapshotter_View _ _ _ _ _) as [[err|] h2].
        -- option_failed [CallRootFS i; CallView (containers.Snapshotter container) id
                                          (identity_ChainID diffIDs)].
        -- option_passed IH [CallRootFS i; CallView (containers.Snapshotter container) id
                                             (identity_ChainID diffIDs)].
      * option_failed [CallRootFS i].
    + option_passed IH (@nil Call).
    + option_passed IH (@nil Call).
    + option_passed IH (@nil Call).
Qed.

(** X14: NewContainer with options of the package asks the container
    service at most once, as its last call, and everything before that is
    a call made by an option (a snapshot lookup, a snapshot preparation, a
    view, or the reading of an image's root filesystem).  The container it
    asks for is determined by the option list alone: it has the id given
    to NewContainer, which no option changes, and every other field is
    what the last option that sets it gave, the client's runtime being the
    default.  When no creation is asked for, the call failed. *)
Theorem container_is_created_as_described (c : containerd.Client) (id : string)
    (l : list ContainerOption) (s s' : Session) (r : res containers.Container) :
  NewContainer c id (map containerOpt l) s = (r, s') →
  let container := described l (blank c id) in
  containers.ID container = id
  ∧ ∃ before,
      Forall (λ ev, isOptionCall ev = true) before
      ∧ ((calls s' = calls s ++ before ∧ ∃ err, r = Fail err)
         ∨ calls s' = calls s ++ before ++ [CallCreate container]).
Proof.
  intros Hrun container. split; [apply described_ID|].
  unfold NewContainer in Hrun. fold (blank c id) in Hrun.
  destruct (applyContainerOpts c (map containerOpt l) (blank c id) s)
    as [[[err|] container1] s1] eqn:Hopts;
    apply applyContainerOpts_package in Hopts as (before & Hcalls & F & Hdesc);
    exists before; (split; [done|]).
  - injection Hrun as <- <-. left. eauto.
  - right. simpl in Hdesc. rewrite (Hdesc eq_refl) in Hrun. fold container in Hrun.
    unfold invoke in Hrun. destruct (ContainerStore_Create _ _ _) as [r1 h].
    injection Hrun as _ <-. cbn [calls]. by rewrite Hcalls, <- app_assoc.
Qed.

Lemma applyContainerOpts_setters (c : containerd.Client) (l : list ContainerOption) :
  forallb isSetter l = true →
  ∀ container s,
    applyContainerOpts c (map containerOpt l) container s
    = ((None, described l container), s).
Proof.
  induction l as [|o l IH]; intros Hl container s; [done|].
  simpl in Hl. apply andb_true_iff in Hl as [Ho Hl].
  destruct o; try discriminate Ho; simpl; by rewrite (IH Hl).
Qed.

(** X15: the options that only set a field (labels, runtime, snapshotter,
    image) call no service and cannot fail: with these alone, NewContainer
    makes exactly one call, the creation of the container they describe,
    and returns what the container service answers. *)
Theorem setters_go_straight_to_creation (c : containerd.Client) (id : string)
    (l : list ContainerOption) (s : Session) :
  forallb isSetter l = true →
  NewContainer c id (map containerOpt l) s
  = invoke (CallCreate (described l (blank c id)))
      (ContainerStore_Create (containerd.conn c) (described l (blank c id))) s.
Proof.
  intros Hl. unfold NewContainer. fold (blank c id).
  by rewrite (applyContainerOpts_setters c l Hl).
Qed.

Lemma described_setters_RootFS (l : list ContainerOption) :
  forallb isSetter l = true →
  ∀ container, containers.RootFS (described l container) = containers.RootFS container.
Proof.
  induction l as [|o l IH]; intros Hl container; [done|].
  simpl in Hl. apply andb_true_iff in Hl as [Ho Hl].
  destruct o; try discriminate Ho; simpl; by rewrite (IH Hl).
Qed.

Lemma NewContainer_after_setters (c : containerd.Client) (id : string)
    (pre post : list ContainerOption) (o : ContainerOption) (s : Session) :
  forallb isSetter pre = true →
  NewContainer c id (map containerOpt (pre ++ o :: post)) s
  = match containerOpt o c (described pre (blank c id)) s with
    | ((Some err, _), s1) => (Fail err, s1)
    | ((None, container), s1) =>
        match applyContainerOpts c (map containerOpt post) container s1 with
        | ((Some err, _), s2) => (Fail err, s2)
        | ((None, container'), s2) =>
            invoke (CallCreate container')
              (ContainerStore_Create (containerd.conn c) container') s2
        end
    end.
Proof.
  intros Hpre. unfold NewContainer. fold (blank c id).
  rewrite map_app,
    (applyContainerOpts_app _ _ _ _ _ _ _ (applyContainerOpts_setters c pre Hpre _ s)).
  cbn [map applyContainerOpts].
  by destruct (containerOpt o c (described pre (blank c id)) s) as [[[err|] container] s1].
Qed.

(** X16: WithSnapshot looks the snapshot up in the snapshotter that the
    options before it have named, the unnamed default when none has; a
    WithSnapshotter option after it has no effect on the lookup.  When the
    lookup fails, NewContainer returns its error and nothing is created;
    when it succeeds and only setters follow, the container is created
    with the snapshot as its root filesystem and with the snapshotter
    named last, which need not be the one that was asked. *)
Theorem snapshot_is_looked_up_where_named_before (c : containerd.Client) (id key : string)
    (pre post : list ContainerOption) (s : Session) :
  forallb isSetter pre = true →
  let snapshotter := containers.Snapshotter (described pre (blank c id)) in
  let l := pre ++ OptSnapshot key :: post in
  let asked h := mkSession h (calls s ++ [CallMounts snapshotter key]) in
  match Snapshotter_Mounts (containerd.conn c) snapshotter key (host s) with
  | (Some err, h) => NewContainer c id (map containerOpt l) s = (Fail err, asked h)
  | (None, h) =>
      forallb isSetter post = true →
      NewContainer c id (map containerOpt l) s
      = invoke (CallCreate (described l (blank c id)))
          (ContainerStore_Create (containerd.conn c) (described l (blank c id))) (asked h)
      ∧ containers.RootFS (described l (blank c id)) = key
  end.
Proof.
  intros Hpre snapshotter l asked. unfold l.
  rewrite (NewContainer_after_setters c id pre post (OptSnapshot key) s Hpre).
  cbn [containerOpt]. unfold WithSnapshot, invoke. fold snapshotter.
  destruct (Snapshotter_Mounts _ _ _ _) as [[err|] h]; [done|].
  intros Hpost. rewrite (applyContainerOpts_setters c post Hpost), described_app.
  split; [done|]. cbn [described]. by rewrite (described_setters_RootFS post Hpost).
Qed.

(** X17: WithNewSnapshot and WithNewSnapshotView first read the root
    filesystem of the image, then prepare the snapshot (or the view) in
    the snapshotter named by the options before them, on top of the chain
    id of the image's layers.  When the image cannot be read nothing is
    prepared; when the preparation fails nothing is created; in both
    cases NewContainer returns the error.  When both succeed and only
    setters follow, the container the list describes is created. *)
Theorem new_snapshot_is_prepared_on_the_image_chain (c : containerd.Client)
    (id key : string) (img : Image) (view : bool)
    (pre post : list ContainerOption) (s : Session) :
  forallb isSetter pre = true →
  let snapshotter := containers.Snapshotter (described pre (blank c id)) in
  let o := if view then OptNewSnapshotView key img else OptNewSnapshot key img in
  let prepare := if view then Snapshotter_View else Snapshotter_Prepare in
  let CallPrepared := if view then CallView else CallPrepare in
  let l := pre ++ o :: post in
  match Image_RootFS (containerd.conn c) img (host s) with
  | (Fail err, h1) =>
      NewContainer c id (map containerOpt l) s
      = (Fail err, mkSession h1 (calls s ++ [CallRootFS img]))
  | (Ok diffIDs, h1) =>
      let parent := identity_ChainID diffIDs in
      let prepared h :=
        mkSession h (calls s ++ [CallRootFS img; CallPrepared snapshotter key parent]) in
      match prepare (containerd.conn c) snapshotter key parent h1 with
      | (Some err, h2) => NewContainer c id (map containerOpt l) s = (Fail err, prepared h2)
      | (None, h2) =>
          forallb isSetter post = true →
          NewContainer c id (map containerOpt l) s
          = invoke (CallCreate (described l (blank c id)))
              (ContainerStore_Create (containerd.conn c) (described l (blank c id)))
              (prepared h2)
          ∧ containers.RootFS (described l (blank c id)) = key
      end
  end.
Proof.
  intros Hpre snapshotter o prepare CallPrepared l. unfold l.
  rewrite (NewContainer_after_setters c id pre post o s Hpre).
  unfold o, prepare, CallPrepared. destruct view; cbn [containerOpt];
    unfold WithNewSnapshot, WithNewSnapshotView, invoke; fold snapshotter;
    (destruct (Image_RootFS _ _ _) as [[diffIDs|err] h1]; [|done]);
    cbn [host calls].
  - destruct (Snapshotter_View _ _ _ _ _) as [[err|] h2];
      [by rewrite <- app_assoc|].
    intros Hpost.
    rewrite (applyContainerOpts_setters c post Hpost), described_app.
    split; [by rewrite <- app_assoc|].
    cbn [described]. by rewrite (described_setters_RootFS post Hpost).
  - destruct (Snapshotter_Prepare _ _ _ _ _) as [[err|] h2];
      [by rewrite <- app_assoc|].
    intros Hpost.
    rewrite (applyContainerOpts_setters c post Hpost), described_app.
    split; [by rewrite <- app_assoc|].
    cbn [described]. by rewrite (described_setters_RootFS post Hpost).
Qed.

End DaemonProperties.

(** ** The further properties at work on the demo world *)

(** A pull of [latest] into an empty registry, with unpacking into
    overlayfs. *)
Lemma pull_calls_come_in_three_blocks_witness :
  let s' := Demo.recorded ∅ [EvUpdate Demo.record; EvCreate Demo.record;
                             EvUnpack Demo.record "overlayfs"] in
  let opts := [WithPullUnpack; @WithPullSnapshotter Demo.env "overlayfs"] in
  ∃ walk record unpack,
    trace s' = trace Demo.start ++ walk ++ record ++ unpack
    ∧ Forall fromWalk walk
    ∧ (record = [] ∨ ∃ imgrec, record = [EvUpdate imgrec]
                              ∨ record = [EvUpdate imgrec; EvCreate imgrec])
    ∧ (unpack = [] ∨ ∃ img snapshotter, unpack = [EvUnpack img snapshotter] ∧ record ≠ [])
    ∧ (∀ img, Ok Demo.record = Ok img → record ≠ [])
    ∧ (unpack ≠ [] ∨ (∃ img, Ok Demo.record = Ok img) →
       ∃ ctx s1 name desc s2 img,
         @applyOpts Demo.env tt opts defaultRemoteContext Demo.start = Some (Ok ctx, s1)
         ∧ @pullContent Demo.env tt 5 Demo.latest ctx s1 = Some (Ok (name, desc), s2)
         ∧ trace s2 = trace Demo.start ++ walk
         ∧ @recordedAs Demo.env tt (mkImage name desc) img (world s2) record
         ∧ (unpack = [] ∨ (unpack = [EvUnpack img (Snapshotter ctx)] ∧ Unpack ctx = true))
         ∧ (∀ img', Ok Demo.record = Ok img' → img' = img)).
Proof.
  exact (pull_calls_come_in_three_blocks (Collab := Demo.env) tt 5 Demo.latest
           [WithPullUnpack; WithPullSnapshotter "overlayfs"] Demo.start
           (Demo.recorded ∅ [EvUpdate Demo.record; EvCreate Demo.record;
                             EvUnpack Demo.record "overlayfs"])
           (Ok Demo.record) eq_refl).
Defined.

(** A pull through a resolver that hands out no fetcher, with no level of
    the walk allowed. *)
Lemma pull_without_fetcher_stops_before_the_walk_witness :
  @Pull Demo.env tt 0 Demo.latest [@WithResolver Demo.env false] Demo.start
  = Some (Fail (ErrorString "no fetcher"),
          @mkState Demo.env Demo.empty [] [EvResolve Demo.latest; EvFetcher Demo.latest]).
Proof.
  exact (pull_without_fetcher_stops_before_the_walk (Collab := Demo.env) tt 0 Demo.latest
           [@WithResolver Demo.env false] Demo.start Demo.start
           (@mkRemoteContext Demo.env false false EmptyString [] false)
           Demo.latest Demo.index Demo.empty Demo.empty (ErrorString "no fetcher")
           eq_refl eq_refl eq_refl).
Defined.

(** A pull, with conversion, of the schema 1 manifest that the converter
    cannot convert. *)
Lemma pull_failed_conversion_records_nothing_witness :
  let ref := "example.com/app:garbled" in
  let s5 := @mkState Demo.env (["sha256:garbled"], ∅) []
              [EvResolve ref; EvFetcher ref; EvSchema1Handle Demo.garbled; EvSchema1Convert] in
  @Pull Demo.env tt 5 ref [WithSchema1Conversion] Demo.start
  = Some (Fail (ErrorString "sha256:garbled: unexpected end of JSON input"), s5)
  ∧ extends (λ ev, isRegistryOp ev = false ∧ isUnpack ev = false) Demo.start s5.
Proof.
  exact (pull_failed_conversion_records_nothing (Collab := Demo.env) tt 5
           "example.com/app:garbled" [WithSchema1Conversion] Demo.start Demo.start
           (@mkState Demo.env (["sha256:garbled"], ∅) []
              [EvResolve "example.com/app:garbled"; EvFetcher "example.com/app:garbled";
               EvSchema1Handle Demo.garbled])
           (@mkRemoteContext Demo.env true false EmptyString [] true)
           "example.com/app:garbled" Demo.garbled tt Demo.empty Demo.empty
           (["sha256:garbled"], ∅)
           (ErrorString "sha256:garbled: unexpected end of JSON input")
           eq_refl eq_refl eq_refl eq_refl eq_refl eq_refl eq_refl).
Defined.

(** The pull of [latest], whose root is an image index, with and without
    the conversion option. *)
Lemma conversion_option_is_idle_on_other_roots_witness :
  @Pull Demo.env tt 5 Demo.latest ([WithPullSnapshotter "overlayfs"] ++ [WithSchema1Conversion])
    Demo.start
  = @Pull Demo.env tt 5 Demo.latest [WithPullSnapshotter "overlayfs"] Demo.start.
Proof.
  apply (conversion_option_is_idle_on_other_roots (Collab := Demo.env) tt 5 Demo.latest
           [WithPullSnapshotter "overlayfs"] Demo.start Demo.start
           (@mkRemoteContext Demo.env true false "overlayfs" [] false)
           Demo.latest Demo.index Demo.empty eq_refl eq_refl).
  discriminate.
Defined.

(** The push of the image index: two blobs during the walk, then the
    manifest and the index. *)
Lemma push_uploads_blobs_before_manifests_witness :
  let s' := @mkState Demo.env Demo.empty [Demo.index; Demo.manifest]
              (trace (Demo.walked Demo.latest)
               ++ [EvUpload Demo.manifest None; EvUpload Demo.index None]) in
  ∃ walk manifests,
    trace s' = trace Demo.start ++ walk ++ manifests
    ∧ Forall (λ ev, fromPush ev ∧ notManifestUpload ev) walk
    ∧ Forall manifestUpload manifests
    ∧ (Ok tt = Ok tt →
       stackOfManifests s'
       ∧ manifests = map (λ d, EvUpload d None) (reverse (manifestStack s'))).
Proof.
  exact (push_uploads_blobs_before_manifests (Collab := Demo.env) tt 5 Demo.latest Demo.index
           [] Demo.start
           (@mkState Demo.env Demo.empty [Demo.index; Demo.manifest]
              (trace (Demo.walked Demo.latest)
               ++ [EvUpload Demo.manifest None; EvUpload Demo.index None]))
           (Ok tt) eq_refl).
Defined.

(** A push through a resolver that hands out no pusher, with no level of
    the walk allowed. *)
Lemma push_without_pusher_stops_before_the_walk_witness :
  @Push Demo.env tt 0 Demo.latest Demo.index [@WithResolver Demo.env false] Demo.start
  = Some (Fail (ErrorString "no pusher"), @mkState Demo.env Demo.empty [] [EvPusher Demo.latest]).
Proof.
  exact (push_without_pusher_stops_before_the_walk (Collab := Demo.env) tt 0 Demo.latest
           Demo.index [@WithResolver Demo.env false] Demo.start Demo.start
           (@mkRemoteContext Demo.env false false EmptyString [] false)
           Demo.empty (ErrorString "no pusher") eq_refl eq_refl).
Defined.

(** New with an option of the caller that fails between two options of
    the package. *)
Lemma failing_client_option_prevents_the_dial_witness :
  @New DemoDaemon.daemon DemoDaemon.socket
    [WithDefaultNamespace "default"; DemoDaemon.failingClientOpt; WithDialOpts []]
    DemoDaemon.start
  = ((None, Some (AsIs (ErrorString "bad option"))), DemoDaemon.start).
Proof.
  exact (failing_client_option_prevents_the_dial (D := DemoDaemon.daemon) DemoDaemon.socket
           [WithDefaultNamespace "default"] [WithDialOpts []] DemoDaemon.failingClientOpt
           (mkClientOpts "default" []) (mkClientOpts "default" [])
           (ErrorString "bad option") DemoDaemon.start eq_refl eq_refl).
Defined.

(** A container on a snapshot that does not exist. *)
Lemma failing_container_option_prevents_creation_witness :
  @NewContainer DemoDaemon.daemon DemoDaemon.client "web"
    [WithSnapshotter "overlayfs"; WithSnapshot "missing"; WithImage Demo.record]
    DemoDaemon.start
  = (Fail (ErrNotFound "snapshot missing does not exist"),
     @mkSession DemoDaemon.daemon ["/base"] [CallMounts "overlayfs" "missing"]).
Proof.
  exact (failing_container_option_prevents_creation (D := DemoDaemon.daemon)
           DemoDaemon.client "web" [WithSnapshotter "overlayfs"] [WithImage Demo.record]
           (WithSnapshot "missing")
           (DemoDaemon.web EmptyString "io.containerd.runtime.v1.linux" EmptyString "overlayfs")
           (DemoDaemon.web EmptyString "io.containerd.runtime.v1.linux" EmptyString "overlayfs")
           DemoDaemon.start DemoDaemon.start
           (@mkSession DemoDaemon.daemon ["/base"] [CallMounts "overlayfs" "missing"])
           (ErrNotFound "snapshot missing does not exist") eq_refl eq_refl).
Defined.

(** A container on a new snapshot of [Demo.record] in overlayfs, run by
    another runtime. *)
Lemma container_is_created_as_described_witness :
  let l := [OptSnapshotter "overlayfs"; OptNewSnapshot "web-rootfs" Demo.record;
            OptRuntime "runsc"] in
  let container := DemoDaemon.web Demo.latest "runsc" "web-rootfs" "overlayfs" in
  described l (@blank DemoDaemon.daemon DemoDaemon.client "web") = container
  ∧ containers.ID container = "web"
  ∧ ∃ before,
      Forall (λ ev, isOptionCall ev = true) before
      ∧ (([CallRootFS Demo.record; CallPrepare "overlayfs" "web-rootfs" "sha256:layer";
           CallCreate container] = [] ++ before
          ∧ ∃ err, Ok container = Fail err)
         ∨ [CallRootFS Demo.record; CallPrepare "overlayfs" "web-rootfs" "sha256:layer";
            CallCreate container] = [] ++ before ++ [CallCreate container]).
Proof.
  split; [reflexivity|].
  exact (container_is_created_as_described (D := DemoDaemon.daemon) DemoDaemon.client "web"
           [OptSnapshotter "overlayfs"; OptNewSnapshot "web-rootfs" Demo.record;
            OptRuntime "runsc"]
           DemoDaemon.start
           (@mkSession DemoDaemon.daemon ["/base"; "overlayfs/web-rootfs"; "container/web"]
              [CallRootFS Demo.record; CallPrepare "overlayfs" "web-rootfs" "sha256:layer";
               CallCreate (DemoDaemon.web Demo.latest "runsc" "web-rootfs" "overlayfs")])
           (Ok (DemoDaemon.web Demo.latest "runsc" "web-rootfs" "overlayfs")) eq_refl).
Defined.

(** A container described by setters only. *)
Lemma setters_go_straight_to_creation_witness :
  let container := DemoDaemon.web Demo.latest "runsc" EmptyString EmptyString in
  @NewContainer DemoDaemon.daemon DemoDaemon.client "web"
    [WithRuntime "runsc"; WithImage Demo.record] DemoDaemon.start
  = (Ok container,
     @mkSession DemoDaemon.daemon ["/base"; "container/web"] [CallCreate container]).
Proof.
  exact (setters_go_straight_to_creation (D := DemoDaemon.daemon) DemoDaemon.client "web"
           [OptRuntime "runsc"; OptImage Demo.record] DemoDaemon.start eq_refl).
Defined.

(** The snapshot [base] exists in the default snapshotter only.  With
    WithSnapshotter after WithSnapshot the lookup finds it, and the
    container is created on it with overlayfs as its snapshotter. *)
Lemma snapshot_is_looked_up_where_named_before_witness :
  let container := DemoDaemon.web EmptyString "io.containerd.runtime.v1.linux" "base"
                     "overlayfs" in
  @NewContainer DemoDaemon.daemon DemoDaemon.client "web"
    [WithSnapshot "base"; WithSnapshotter "overlayfs"] DemoDaemon.start
  = (Ok container,
     @mkSession DemoDaemon.daemon ["/base"; "container/web"]
       [CallMounts EmptyString "base"; CallCreate container])
  ∧ containers.RootFS container = "base".
Proof.
  exact (snapshot_is_looked_up_where_named_before (D := DemoDaemon.daemon) DemoDaemon.client
           "web" "base" [] [OptSnapshotter "overlayfs"] DemoDaemon.start eq_refl eq_refl).
Defined.

(** A container on a new snapshot of [Demo.record], prepared in overlayfs
    on the chain id of its one layer. *)
Lemma new_snapshot_is_prepared_on_the_image_chain_witness :
  let container := DemoDaemon.web Demo.latest "runsc" "web-rootfs" "overlayfs" in
  @NewContainer DemoDaemon.daemon DemoDaemon.client "web"
    [WithSnapshotter "overlayfs"; WithNewSnapshot "web-rootfs" Demo.record; WithRuntime "runsc"]
    DemoDaemon.start
  = (Ok container,
     @mkSession DemoDaemon.daemon ["/base"; "overlayfs/web-rootfs"; "container/web"]
       [CallRootFS Demo.record; CallPrepare "overlayfs" "web-rootfs" "sha256:layer";
        CallCreate container])
  ∧ containers.RootFS container = "web-rootfs".
Proof.
  exact (new_snapshot_is_prepared_on_the_image_chain (D := DemoDaemon.daemon)
           DemoDaemon.client "web" "web-rootfs" Demo.record false
           [OptSnapshotter "overlayfs"] [OptRuntime "runsc"] DemoDaemon.start
           eq_refl eq_refl).
Defined.
